(** * The structured policy pipeline of maze, embedded and verified

    Shallow embedding of [maze/core/agent/torch_policy.py] (the classes
    [PolicySubStepOutput], [PolicyOutput] and [TorchPolicy]) and of
    [maze/test/shared_test_utils/dummy_env/dummy_structured_core_env.py].

    Python dictionaries are finite maps ([gmap]), Python sets are [gset],
    Python lists are [list].  A raised exception is the [Raise] result of
    the error monad [Result].  The [nn.Module] objects held by a policy are
    references into a store, so that two registry keys may share one module
    and [load_state_dict] updates modules in place.

    A loop over the items of a dictionary runs over [map_to_list]; the
    results below are proved from membership in that list and from the
    distinctness of its keys, and so hold for the insertion order of the
    Python dictionary as well. *)

From stdpp Require Import base decidable numbers countable option list.
From stdpp Require Import strings gmap fin_maps fin_map_dom.

Local Open Scope Z_scope.
Local Open Scope string_scope.

Module torch_policy.

(** ** Addressing: step keys, actor ids, registry keys *)

(** [StepKeyType = Union[str, int]]. *)
Inductive StepKey : Type :=
  | StepInt (n : Z)
  | StepStr (s : string).

(** Modelled from the spec: [ActorID] is imported from
    [maze.core.env.structured_env]; the spec describes it as the immutable
    composite (step_key, agent_id). *)
Record ActorID : Type := mkActorID { step_key : StepKey; agent_id : Z }.

(** A key of [TorchPolicy.networks]: a step key (shared network) or a full
    actor id (separate network per agent). *)
Inductive NetKey : Type :=
  | ByStep (k : StepKey)
  | ByActor (a : ActorID).

#[global] Instance StepKey_eq_dec : EqDecision StepKey.
Proof. solve_decision. Defined.

#[global] Instance ActorID_eq_dec : EqDecision ActorID.
Proof. solve_decision. Defined.

#[global] Instance NetKey_eq_dec : EqDecision NetKey.
Proof. solve_decision. Defined.

#[global] Instance StepKey_countable : Countable StepKey.
Proof.
  refine (inj_countable'
            (λ k, match k with StepInt n => inl n | StepStr s => inr s end)
            (λ x, match x with inl n => StepInt n | inr s => StepStr s end) _).
  by intros [].
Defined.

#[global] Instance ActorID_countable : Countable ActorID.
Proof.
  refine (inj_countable' (λ a, (step_key a, agent_id a))
                         (λ p, mkActorID p.1 p.2) _).
  by intros [].
Defined.

#[global] Instance NetKey_countable : Countable NetKey.
Proof.
  refine (inj_countable'
            (λ k, match k with ByStep s => inl s | ByActor a => inr a end)
            (λ x, match x with inl s => ByStep s | inr a => ByActor a end) _).
  by intros [].
Defined.

(** ** Exceptions and the error monad *)

(** A reference to an [nn.Module] object. *)
Definition ModuleRef : Type := positive.

Inductive Error : Type :=
  | AssertionError (msg : string)   (* a failed [assert] *)
  | AssertionErrorAt (msg : string) (key : NetKey)  (* the message names a key *)
  | KeyError (key : NetKey)         (* [self.networks[network_key]] *)
  | IndexError                      (* list index out of range *)
  | ModuleError                     (* raised inside [nn.Module.load_state_dict] *)
  | UnboundModule (r : ModuleRef).  (* a reference with no object: unreachable in Python *)

Inductive Result (A : Type) : Type :=
  | Ok (a : A)
  | Raise (e : Error).
Arguments Ok {A} a.
Arguments Raise {A} e.

#[global] Instance Result_ret : MRet Result := λ A a, Ok a.
#[global] Instance Result_bind : MBind Result := λ A B f m,
  match m with Ok a => f a | Raise e => Raise e end.

(** A [for] loop that threads an accumulator and stops at the first raise. *)
Fixpoint for_each {A B : Type} (body : B → A → Result B) (acc : B) (l : list A)
  : Result B :=
  match l with
  | [] => Ok acc
  | x :: l' => acc' ← body acc x; for_each body acc' l'
  end.

(** Python's [any] over a list of booleans. *)
Definition any (l : list bool) : bool := existsb id l.

(** ** External collaborators

    torch, the distribution mapper and the tensor conversion utility are not
    part of the repository; the policy is verified against this interface. *)
Class Torch : Type := {
  Tensor : Type;            (* torch.Tensor *)
  Observation : Type;       (* ObservationType *)
  Device : Type;            (* device string *)
  Temperature : Type;       (* float *)
  Distribution : Type;      (* DictProbabilityDistribution *)
  Action : Type;            (* TorchActionType *)
  ModuleState : Type;       (* the parameters and buffers of an nn.Module *)
  ModuleStateDict : Type;   (* what nn.Module.state_dict() returns *)
  convert_to_torch : Observation → Device → Observation;
  module_call : ModuleState → Observation → gmap string Tensor;
  module_state_dict : ModuleState → ModuleStateDict;
  module_load_state_dict : ModuleState → ModuleStateDict → option ModuleState;
  logits_dict_to_distribution : gmap string Tensor → Temperature → Distribution;
  log_prob : Distribution → Action → Tensor;
  dist_entropy : Distribution → Tensor;
}.

(** The contract of [nn.Module] this development relies on for the
    serialisation round trip: loading a module's own state dict succeeds and
    leaves the module as it was. *)
Class ModuleRoundTrip (T : Torch) : Prop :=
  module_load_own_state_dict :
    ∀ s : ModuleState, module_load_state_dict s (module_state_dict s) = Some s.

Section policy.
Context {T : Torch}.

Abbreviation Logits := (gmap string Tensor).
Abbreviation Store := (gmap ModuleRef ModuleState).

(** ** [TorchPolicy] *)

Record TorchPolicy : Type := {
  networks : gmap NetKey ModuleRef;
  (* [distribution_mapper.action_space.spaces.keys()] *)
  action_space_keys : gset string;
  substeps_with_separate_agent_nets : gset StepKey;
  _device : Device;
}.

(** [__init__] *)
Definition TorchPolicy_init (networks : gmap NetKey ModuleRef)
    (action_space_keys : gset string) (device : Device)
    (substeps_with_separate_agent_nets : option (list StepKey)) : TorchPolicy :=
  {| networks := networks;
     action_space_keys := action_space_keys;
     substeps_with_separate_agent_nets :=
       match substeps_with_separate_agent_nets with
       | Some substeps => list_to_set substeps
       | None => ∅
       end;
     _device := device |}.

Definition msg_multiple_networks : string :=
  "multiple networks are available, please specify the actor ID explicitly".

Definition network_key (π : TorchPolicy) (actor_id : ActorID) : NetKey :=
  if decide (step_key actor_id ∈ substeps_with_separate_agent_nets π)
  then ByActor actor_id
  else ByStep (step_key actor_id).

(** [self.networks[key]] *)
Definition networks_getitem (π : TorchPolicy) (key : NetKey) : Result ModuleRef :=
  match networks π !! key with
  | Some net => Ok net
  | None => Raise (KeyError key)
  end.

Definition network_for (π : TorchPolicy) (actor_id : option ActorID)
  : Result ModuleRef :=
  match actor_id with
  | None =>
      if decide (size (networks π) = 1%nat) then
        match (map_to_list (networks π)).*2 !! 0%nat with
        | Some net => Ok net
        | None => Raise IndexError
        end
      else Raise (AssertionError msg_multiple_networks)
  | Some actor_id => networks_getitem π (network_key π actor_id)
  end.

(** Calling the module object [net] on [obs_t]: the forward pass of the
    module in its current state. *)
Definition call_network (σ : Store) (net : ModuleRef) (obs_t : Observation)
  : Result Logits :=
  match σ !! net with
  | Some s => Ok (module_call s obs_t)
  | None => Raise (UnboundModule net)
  end.

(** The network of [actor_id] resolves: [network_for] returns a module
    object, which the store holds. *)
Definition resolves (π : TorchPolicy) (σ : Store) (actor_id : option ActorID)
  : Prop :=
  ∃ net s, network_for π actor_id = Ok net ∧ σ !! net = Some s.

(** ** [PolicySubStepOutput] and [PolicyOutput] *)

Record PolicySubStepOutput : Type := {
  action_logits : Logits;
  prob_dist : Distribution;
  embedding_logits : option Logits;
  actor_id : option ActorID;
}.

(** The [entropy] property of a sub-step output. *)
Definition entropy (out : PolicySubStepOutput) : Tensor :=
  dist_entropy (prob_dist out).

Record PolicyOutput : Type := { _step_policy_outputs : list PolicySubStepOutput }.

(** [PolicyOutput()] *)
Definition PolicyOutput_new : PolicyOutput := {| _step_policy_outputs := [] |}.

(** [__getitem__]: Python list indexing, negative indices count from the end. *)
Definition getitem (po : PolicyOutput) (item : Z) : Result PolicySubStepOutput :=
  let l := _step_policy_outputs po in
  let i := if decide (item < 0) then item + Z.of_nat (length l) else item in
  if decide (i < 0) then Raise IndexError
  else match l !! Z.to_nat i with
       | Some x => Ok x
       | None => Raise IndexError
       end.

Definition append (po : PolicyOutput) (value : PolicySubStepOutput) : PolicyOutput :=
  {| _step_policy_outputs := _step_policy_outputs po ++ [value] |}.

Definition actor_ids (po : PolicyOutput) : list (option ActorID) :=
  map (λ x, actor_id x) (_step_policy_outputs po).

Definition action_logits_list (po : PolicyOutput) : list Logits :=
  action_logits <$> _step_policy_outputs po.

Definition prob_dist_list (po : PolicyOutput) : list Distribution :=
  prob_dist <$> _step_policy_outputs po.

Definition entropy_list (po : PolicyOutput) : list Tensor :=
  entropy <$> _step_policy_outputs po.

Definition embedding_logits_list (po : PolicyOutput) : list (option Logits) :=
  embedding_logits <$> _step_policy_outputs po.

(** ** Logits *)

Definition msg_no_embedding : string :=
  "If return embedding is specified the network should also produce an embedding output.".

(** [any([key not in ...action_space.spaces.keys() for key in network_out.keys()])] *)
Definition any_key_outside (π : TorchPolicy) (network_out : Logits) : bool :=
  any ((λ key, bool_decide (key ∉ action_space_keys π))
         <$> (map_to_list network_out).*1).

(** [dict(filter(lambda ii: ii[0] in ...keys(), network_out.items()))] *)
Definition filter_in (π : TorchPolicy) (network_out : Logits) : Logits :=
  filter (λ ii, ii.1 ∈ action_space_keys π) network_out.

(** [dict(filter(lambda ii: ii[0] not in ...keys(), network_out.items()))] *)
Definition filter_not_in (π : TorchPolicy) (network_out : Logits) : Logits :=
  filter (λ ii, ii.1 ∉ action_space_keys π) network_out.

Definition compute_logits_dict (π : TorchPolicy) (σ : Store)
    (observation : Observation) (actor_id : option ActorID)
    (return_embedding : bool) : Result (Logits * option Logits) :=
  let obs_t := convert_to_torch observation (_device π) in
  net ← network_for π actor_id;
  network_out ← call_network σ net obs_t;
  embedding_out ←
    (if return_embedding then
       let embedding_out := filter_not_in π network_out in
       if decide (0 < size embedding_out)%nat then Ok (Some embedding_out)
       else Raise (AssertionError msg_no_embedding)
     else Ok None);
  let network_out :=
    if any_key_outside π network_out then filter_in π network_out
    else network_out in
  Ok (network_out, embedding_out).

(** ** Log probabilities *)

Definition compute_action_log_probs (policy_output : PolicyOutput)
    (actions : list Action) : Result (list Tensor) :=
  if decide (length (prob_dist_list policy_output) = length actions) then
    Ok ((λ '(pb, ac), log_prob pb ac) <$> zip (prob_dist_list policy_output) actions)
  else Raise (AssertionError EmptyString).

(** ** Policy outputs *)

Definition compute_substep_policy_output (π : TorchPolicy) (σ : Store)
    (observation : Observation) (actor_id : option ActorID)
    (temperature : Temperature) : Result PolicySubStepOutput :=
  let obs_t := convert_to_torch observation (_device π) in
  net ← network_for π actor_id;
  network_out ← call_network σ net obs_t;
  let '(action_logits, embedding_logits) :=
    if any_key_outside π network_out then
      (filter_in π network_out, Some (filter_not_in π network_out))
    else (network_out, None) in
  let prob_dist := logits_dict_to_distribution action_logits temperature in
  Ok {| action_logits := action_logits; prob_dist := prob_dist;
        embedding_logits := embedding_logits; actor_id := actor_id |}.

(** Modelled from the spec: [StructuredSpacesRecord] is imported from
    [maze.core.trajectory_recording]; the spec describes it as an ordered
    sequence of sub-step entries, each with an observation and an actor id. *)
Record SpacesRecord : Type := {
  observation : Observation;
  record_actor_id : option ActorID;
}.

Record StructuredSpacesRecord : Type := { substep_records : list SpacesRecord }.

Definition compute_policy_output (π : TorchPolicy) (σ : Store)
    (record : StructuredSpacesRecord) (temperature : Temperature)
  : Result PolicyOutput :=
  for_each
    (λ structured_policy_output substep_record,
       out ← compute_substep_policy_output π σ (observation substep_record)
               (record_actor_id substep_record) temperature;
       Ok (append structured_policy_output out))
    PolicyOutput_new (substep_records record).

(** ** Serialisation *)

Abbreviation StateDict := (gmap string (gmap NetKey ModuleStateDict)).

Definition msg_no_state_dict : string := "Could not find state dict for policy ID: ".

(** [policy.state_dict()] on the module object [policy]. *)
Definition network_state_dict (σ : Store) (policy : ModuleRef)
  : Result ModuleStateDict :=
  match σ !! policy with
  | Some s => Ok (module_state_dict s)
  | None => Raise (UnboundModule policy)
  end.

(** [policy.load_state_dict(sd)]: the module object is updated in place. *)
Definition network_load_state_dict (σ : Store) (policy : ModuleRef)
    (sd : ModuleStateDict) : Result Store :=
  match σ !! policy with
  | Some s =>
      match module_load_state_dict s sd with
      | Some s' => Ok (<[policy := s']> σ)
      | None => Raise ModuleError
      end
  | None => Raise (UnboundModule policy)
  end.

Definition state_dict (π : TorchPolicy) (σ : Store) : Result StateDict :=
  state_dict_policies ←
    for_each
      (λ (state_dict_policies : gmap NetKey ModuleStateDict) '(key, policy),
         sd ← network_state_dict σ policy;
         Ok (<[key := sd]> state_dict_policies))
      ∅ (map_to_list (networks π));
  Ok {[ "policies" := state_dict_policies ]}.

Definition load_state_dict (π : TorchPolicy) (state_dict : StateDict) (σ : Store)
  : Result Store :=
  match state_dict !! "policies" with
  | Some state_dict_policies =>
      for_each
        (λ (σ : Store) '(key, policy),
           match state_dict_policies !! key with
           | Some sd => network_load_state_dict σ policy sd
           | None => Raise (AssertionErrorAt msg_no_state_dict key)
           end)
        σ (map_to_list (networks π))
  | None => Ok σ
  end.

End policy.

(** ** Sampling, and the conversion of actions back to numpy

    Further collaborators of the rollout methods.  The random generator that
    [prob_dist.sample()] draws from is a state threaded through the call. *)
Class Sampling (T : Torch) : Type := {
  Rng : Type;               (* the state of the random generator *)
  NumpyAction : Type;       (* ActionType *)
  temperature_one : Temperature;                 (* the float [1.0] *)
  deterministic_sample : Distribution → Action;
  sample : Distribution → Rng → Action * Rng;
  convert_to_numpy : Action → NumpyAction;
}.

(** The operations of [nn.Module] behind the lifecycle methods. *)
Class Lifecycle (T : Torch) : Type := {
  module_parameters : ModuleState → list Tensor;
  module_eval : ModuleState → ModuleState;
  module_train : ModuleState → ModuleState;
  module_to : ModuleState → Device → ModuleState;
}.

Section rollout.
Context {T : Torch} {S : Sampling T}.

Abbreviation Logits := (gmap string Tensor).
Abbreviation Store := (gmap ModuleRef ModuleState).

(** [TorchPolicy.logits_dict_to_distribution]; the temperature defaults to 1.0. *)
Definition TorchPolicy_logits_dict_to_distribution
    (logits_dict : Logits) (temperature : option Temperature) : Distribution :=
  logits_dict_to_distribution logits_dict (default temperature_one temperature).

(** [prob_dist.deterministic_sample()] or [prob_dist.sample()]. *)
Definition draw (prob_dist : Distribution) (deterministic : bool) (rng : Rng)
  : Action * Rng :=
  if deterministic then (deterministic_sample prob_dist, rng)
  else sample prob_dist rng.

(** The body runs under [torch.no_grad()], which changes none of the values
    computed. *)
Definition compute_action_with_logits (π : TorchPolicy) (σ : Store)
    (observation : Observation) (actor_id : option ActorID)
    (deterministic : bool) (rng : Rng)
  : Result ((NumpyAction * Logits) * Rng) :=
  '(logits_dict, _) ← compute_logits_dict π σ observation actor_id false;
  let prob_dist := TorchPolicy_logits_dict_to_distribution logits_dict None in
  let '(sampled_action, rng) := draw prob_dist deterministic rng in
  Ok ((convert_to_numpy sampled_action, logits_dict), rng).

Definition compute_action {MS E : Type} (π : TorchPolicy) (σ : Store)
    (observation : Observation) (maze_state : option MS) (env : option E)
    (actor_id : option ActorID) (deterministic : bool) (rng : Rng)
  : Result (NumpyAction * Rng) :=
  '((action, _), rng) ←
    compute_action_with_logits π σ observation actor_id deterministic rng;
  Ok (action, rng).

Definition compute_action_logits_entropy_dist (π : TorchPolicy) (σ : Store)
    (actor_id : option ActorID) (observation : Observation)
    (deterministic : bool) (temperature : Temperature) (rng : Rng)
  : Result ((Action * Logits * Tensor * Distribution) * Rng) :=
  let obs_t := convert_to_torch observation (_device π) in
  '(logits_dict, _) ← compute_logits_dict π σ obs_t actor_id false;
  let prob_dist :=
    TorchPolicy_logits_dict_to_distribution logits_dict (Some temperature) in
  let '(sampled_action, rng) := draw prob_dist deterministic rng in
  Ok ((sampled_action, logits_dict, dist_entropy prob_dist, prob_dist), rng).

Definition compute_action_distribution (π : TorchPolicy) (σ : Store)
    (observation : Observation) (actor_id : option ActorID)
  : Result Distribution :=
  '(logits_dict, _) ← compute_logits_dict π σ observation actor_id false;
  Ok (logits_dict_to_distribution logits_dict temperature_one).

End rollout.

Section lifecycle.
Context {T : Torch} {L : Lifecycle T}.

Abbreviation Store := (gmap ModuleRef ModuleState).

(** [for policy in self.networks.values(): policy.<method>()] where the
    method changes the module in place to [f] of its state. *)
Definition for_each_network (f : ModuleState → ModuleState)
    (π : TorchPolicy) (σ : Store) : Result Store :=
  for_each
    (λ (σ : Store) (policy : ModuleRef),
       match σ !! policy with
       | Some s => Ok (<[policy := f s]> σ)
       | None => Raise (UnboundModule policy)
       end)
    σ (map_to_list (networks π)).*2.

Definition parameters (π : TorchPolicy) (σ : Store) : Result (list Tensor) :=
  for_each
    (λ (params : list Tensor) (policy : ModuleRef),
       match σ !! policy with
       | Some s => Ok (params ++ module_parameters s)%list
       | None => Raise (UnboundModule policy)
       end)
    [] (map_to_list (networks π)).*2.

Definition eval (π : TorchPolicy) (σ : Store) : Result Store :=
  for_each_network module_eval π σ.

Definition train (π : TorchPolicy) (σ : Store) : Result Store :=
  for_each_network module_train π σ.

Definition to (π : TorchPolicy) (σ : Store) (device : Device)
  : TorchPolicy * Result Store :=
  let π := {| networks := networks π;
              action_space_keys := action_space_keys π;
              substeps_with_separate_agent_nets :=
                substeps_with_separate_agent_nets π;
              _device := device |} in
  (π, for_each_network (λ s, module_to s device) π σ).

(** [seed] does nothing and [needs_state] is False. *)
Definition seed (π : TorchPolicy) (seed : Z) : TorchPolicy := π.

Definition needs_state (π : TorchPolicy) : bool := false.

(** Every module object the registry holds exists in the store. *)
Definition bound (π : TorchPolicy) (σ : Store) : Prop :=
  ∀ key net, networks π !! key = Some net → is_Some (σ !! net).

(** The number of registry keys under which the module [net] is registered. *)
Definition registrations (π : TorchPolicy) (net : ModuleRef) : nat :=
  length (filter (λ policy, policy = net) (map_to_list (networks π)).*2).

End lifecycle.

End torch_policy.

Module dummy_structured_core_env.

(** ** External collaborators of the dummy environment

    The gym observation space, the environment context of [CoreEnv] and the
    reward aggregator are not part of the modelled file.  Each is an opaque
    state with the one operation the environment calls on it. *)
Class Collaborators : Type := {
  MazeState : Type;        (* what [observation_space.sample()] returns *)
  MazeAction : Type;
  Space : Type;            (* the observation space with its random state *)
  EnvContext : Type;       (* [self.context] *)
  Aggregator : Type;       (* [self.reward_aggregator] *)
  Reward : Type;
  zero : Reward;           (* the literal [0] *)
  sample : Space → MazeState * Space;
  increment_env_step : EnvContext → EnvContext;
  summarize_reward : Aggregator → Reward * Aggregator;
}.

Section env.
Context {C : Collaborators}.

Record DummyStructuredCoreEnvironment : Type := {
  observation_space : Space;
  context : EnvContext;
  reward_aggregator : Aggregator;
  current_agent : Z;
}.

Abbreviation Env := DummyStructuredCoreEnvironment.

(** The empty dict [{}] returned as the info of a step. *)
Definition Info : Type := gmap string string.

(** [__init__]; the context and the aggregator are created by code outside
    the modelled file and passed in here. *)
Definition init (observation_space : Space) (context : EnvContext)
    (reward_aggregator : Aggregator) : Env :=
  {| observation_space := observation_space; context := context;
     reward_aggregator := reward_aggregator; current_agent := 0 |}.

Definition get_maze_state (self : Env) : MazeState * Env :=
  let '(obs, space) := sample (observation_space self) in
  (obs, {| observation_space := space; context := context self;
           reward_aggregator := reward_aggregator self;
           current_agent := current_agent self |}).

Definition step (self : Env) (maze_action : MazeAction)
  : (MazeState * Reward * bool * Info) * Env :=
  if decide (current_agent self = 0) then
    let self := {| observation_space := observation_space self;
                   context := context self;
                   reward_aggregator := reward_aggregator self;
                   current_agent := 1 |} in
    let '(obs, self) := get_maze_state self in
    ((obs, zero, false, ∅), self)
  else
    let self := {| observation_space := observation_space self;
                   context := context self;
                   reward_aggregator := reward_aggregator self;
                   current_agent := 0 |} in
    let self := {| observation_space := observation_space self;
                   context := increment_env_step (context self);
                   reward_aggregator := reward_aggregator self;
                   current_agent := current_agent self |} in
    let '(obs, self) := get_maze_state self in
    let '(reward, aggregator) := summarize_reward (reward_aggregator self) in
    ((obs, reward, false, ∅),
     {| observation_space := observation_space self; context := context self;
        reward_aggregator := aggregator; current_agent := current_agent self |}).

Definition reset (self : Env) : MazeState * Env :=
  let self := {| observation_space := observation_space self;
                 context := context self;
                 reward_aggregator := reward_aggregator self;
                 current_agent := 0 |} in
  get_maze_state self.

Definition actor_id (self : Env) : Z * Z := (0, current_agent self).

Definition is_actor_done (self : Env) : bool := false.

(** The environments a program can hold: built by [__init__], then driven
    through [reset] and [step]. *)
Inductive reachable : Env → Prop :=
  | reachable_init space ctx agg : reachable (init space ctx agg)
  | reachable_reset self : reachable self → reachable (reset self).2
  | reachable_step self maze_action :
      reachable self → reachable (step self maze_action).2.

Definition agent_counts_dict (self : Env) : gmap Z Z := {[ 0 := 2 ]}.

(** The random state of the observation space after one draw. *)
Definition advance (space : Space) : Space := (sample space).2.

(** A run of [step] calls, one per action, returning what each call
    returned together with the environment left behind. *)
Fixpoint steps (self : Env) (maze_actions : list MazeAction)
  : list (MazeState * Reward * bool * Info) * Env :=
  match maze_actions with
  | [] => ([], self)
  | maze_action :: rest =>
      let '(out, self) := step self maze_action in
      let '(outs, self) := steps self rest in
      (out :: outs, self)
  end.

End env.

End dummy_structured_core_env.

Module distributed_env.




End distributed_env.

(** ** Concrete collaborators, for running the model on examples *)

Module fixtures.
Import torch_policy.

(** A module is a table of integer weights, one per output head; its forward
    pass scales every weight by the observation.  Its state dict is the
    table itself, and loading insists on the same heads. *)
#[local] Instance toy_torch : Torch := {|
  Tensor := Z;
  Observation := Z;
  Device := unit;
  Temperature := Z;
  Distribution := gmap string Z;
  Action := Z;
  ModuleState := gmap string Z;
  ModuleStateDict := gmap string Z;
  convert_to_torch := λ obs _, obs;
  module_call := λ s obs, (λ w, w * obs) <$> s;
  module_state_dict := λ s, s;
  module_load_state_dict := λ s sd, if decide (dom sd = dom s) then Some sd else None;
  logits_dict_to_distribution := λ logits temperature, (λ x, x * temperature) <$> logits;
  log_prob := λ dist ac, default 0 (dist !! "move") - ac;
  dist_entropy := λ dist, Z.of_nat (size dist);
|}.

Definition a00 : ActorID := mkActorID (StepInt 0) 0.
Definition a01 : ActorID := mkActorID (StepInt 0) 1.
Definition a10 : ActorID := mkActorID (StepInt 1) 0.
Definition a11 : ActorID := mkActorID (StepInt 1) 1.

(** Sub-step 0 shares one network, sub-step 1 has one network per agent. *)
Definition toy_policy : TorchPolicy :=
  TorchPolicy_init
    {[ ByStep (StepInt 0) := 1%positive;
       ByActor a10 := 2%positive;
       ByActor a11 := 3%positive ]}
    {[ "move" ]} tt (Some [StepInt 1]).

(** Module 1 emits the action head only, modules 2 and 3 add a latent head. *)
Definition shared_net : gmap string Z := {[ "move" := 2 ]}.
Definition agent0_net : gmap string Z := {[ "move" := 3; "latent" := 5 ]}.
Definition agent1_net : gmap string Z := {[ "move" := 7; "latent" := 11 ]}.

Definition toy_store : gmap ModuleRef (gmap string Z) :=
  {[ 1%positive := shared_net; 2%positive := agent0_net; 3%positive := agent1_net ]}.

Definition single_policy : TorchPolicy :=
  TorchPolicy_init {[ ByStep (StepInt 0) := 1%positive ]} {[ "move" ]} tt None.

Definition toy_record : StructuredSpacesRecord := {|
  substep_records :=
    [ {| observation := 1; record_actor_id := Some a00 |};
      {| observation := 2; record_actor_id := Some a10 |};
      {| observation := 3; record_actor_id := Some a11 |} ]
|}.

(** A policy output of one sub-step, as sub-step 0 produces it on observation 4. *)
Definition toy_output : PolicyOutput := {|
  _step_policy_outputs :=
    [ {| action_logits := {[ "move" := 8 ]}; prob_dist := {[ "move" := 8 ]};
         embedding_logits := None; actor_id := Some a00 |} ]
|}.

(** A saved state with an entry for the shared network only. *)
Definition partial_state_dict : gmap string (gmap NetKey (gmap string Z)) :=
  {[ "policies" := {[ ByStep (StepInt 0) := shared_net ]} ]}.

(** A saved state of critics, with no "policies" key. *)
Definition critics_only : gmap string (gmap NetKey (gmap string Z)) :=
  {[ "critics" := {[ ByStep (StepInt 0) := shared_net ]} ]}.

(** A saved state with new weights for the shared network. *)
Definition retrained_net : gmap string Z := {[ "move" := 9 ]}.

Definition retrained_state_dict : gmap string (gmap NetKey (gmap string Z)) :=
  {[ "policies" := {[ ByStep (StepInt 0) := retrained_net ]} ]}.

(** A record whose second entry names a sub-step without a network. *)
Definition failing_record : StructuredSpacesRecord := {|
  substep_records :=
    [ {| observation := 1; record_actor_id := Some a00 |};
      {| observation := 2; record_actor_id := Some (mkActorID (StepInt 5) 0) |};
      {| observation := 3; record_actor_id := Some a11 |} ]
|}.

(** The mode sampled is the "move" logit; a random draw adds the generator
    state to it and advances the generator. *)
#[local] Instance toy_sampling : Sampling toy_torch := {|
  Rng := Z;
  NumpyAction := Z;
  temperature_one := 1;
  deterministic_sample := λ dist, default 0 (dist !! "move");
  sample := λ dist rng, (default 0 (dist !! "move") + rng, rng + 1);
  convert_to_numpy := λ ac, ac;
|}.

(** Modules with a training flag and a device besides their weights. *)
Definition Staged : Type := gmap string Z * bool * string.

#[local] Instance staged_torch : Torch := {|
  Tensor := Z;
  Observation := Z;
  Device := string;
  Temperature := Z;
  Distribution := gmap string Z;
  Action := Z;
  ModuleState := Staged;
  ModuleStateDict := gmap string Z;
  convert_to_torch := λ obs _, obs;
  module_call := λ (s : Staged) obs, (λ w, w * obs) <$> s.1.1;
  module_state_dict := λ s : Staged, s.1.1;
  module_load_state_dict := λ (s : Staged) (sd : gmap string Z),
    if decide (dom sd = dom s.1.1) then Some (sd, s.1.2, s.2) else None;
  logits_dict_to_distribution := λ logits temperature, (λ x, x * temperature) <$> logits;
  log_prob := λ dist ac, default 0 (dist !! "move") - ac;
  dist_entropy := λ dist, Z.of_nat (size dist);
|}.

Definition staged_parameters (s : Staged) : list Z := (map_to_list s.1.1).*2.
Definition staged_eval (s : Staged) : Staged := (s.1.1, false, s.2).
Definition staged_train (s : Staged) : Staged := (s.1.1, true, s.2).
Definition staged_to (s : Staged) (device : string) : Staged := (s.1.1, s.1.2, device).

#[local] Instance staged_lifecycle : Lifecycle staged_torch := {|
  module_parameters := staged_parameters;
  module_eval := staged_eval;
  module_train := staged_train;
  module_to := staged_to;
|}.

(** Sub-steps 0 and 1 share the module 1, sub-step 2 has the module 2; the
    module 3 is held by nobody. *)
Definition shared_policy : @TorchPolicy staged_torch :=
  TorchPolicy_init
    {[ ByStep (StepInt 0) := 1%positive;
       ByStep (StepInt 1) := 1%positive;
       ByStep (StepInt 2) := 2%positive ]}
    {[ "move" ]} "cpu" None.

Definition staged_store : gmap ModuleRef Staged :=
  {[ 1%positive := ({[ "move" := 2 ]}, true, "cpu");
     2%positive := ({[ "move" := 3; "latent" := 5 ]}, true, "cpu");
     3%positive := ({[ "move" := 7 ]}, true, "cpu") ]}.

Import dummy_structured_core_env.

(** Observations are drawn from a counter, the context counts env steps. *)
#[local] Instance toy_collaborators : Collaborators := {|
  MazeState := Z;
  MazeAction := unit;
  Space := Z;
  EnvContext := Z;
  Aggregator := Z;
  Reward := Z;
  zero := 0;
  sample := λ seed, (seed, seed + 1);
  increment_env_step := Z.succ;
  summarize_reward := λ agg, (agg, agg);
|}.

End fixtures.

(** * Verification *)

Import torch_policy.

(** ** Loops in the error monad *)

(** A loop raises as soon as one of its iterations is bound to raise. *)
Lemma for_each_raises {A B : Type} (body : B → A → Result B) (l : list A) x :
  x ∈ l →
  (∀ acc, ∃ e, body acc x = Raise e) →
  ∀ acc, ∃ e, for_each body acc l = Raise e.
Proof.
  intros Hin Hx. induction l as [|y l IH]; intros acc.
  - by apply not_elem_of_nil in Hin.
  - simpl. destruct (body acc y) as [acc'|e] eqn:Hy; simpl.
    + apply elem_of_cons in Hin as [->|Hin].
      * destruct (Hx acc) as [e He]. congruence.
      * by apply IH.
    + by exists e.
Qed.

(** Two loop bodies that agree on the elements of the list run alike. *)
Lemma for_each_ext {A B : Type} (f g : B → A → Result B) (l : list A) :
  (∀ acc x, x ∈ l → f acc x = g acc x) →
  ∀ acc, for_each f acc l = for_each g acc l.
Proof.
  induction l as [|y l IH]; intros Hfg acc; [done|].
  simpl. rewrite (Hfg acc y) by apply list_elem_of_here.
  destruct (g acc y) as [acc'|e]; simpl; [|done].
  apply IH. intros acc'' x Hx. apply Hfg. by apply list_elem_of_further.
Qed.

Section registry.
Context {T : Torch}.
Implicit Types (π : TorchPolicy) (a : ActorID) (net : ModuleRef).

Lemma map_size_1_inv {K : Type} `{Countable K} {A : Type} (m : gmap K A) :
  size m = 1%nat → ∃ k v, m = {[ k := v ]} ∧ map_to_list m = [(k, v)].
Proof.
  intros Hsize. rewrite <- length_map_to_list in Hsize.
  destruct (map_to_list m) as [|[k v] [|]] eqn:Hl; try discriminate Hsize.
  exists k, v. split; [|done].
  rewrite <- (list_to_map_to_list m), Hl. done.
Qed.

Lemma network_key_separate π a :
  step_key a ∈ substeps_with_separate_agent_nets π → network_key π a = ByActor a.
Proof. intros Hin. unfold network_key. by rewrite decide_True. Qed.

Lemma network_key_shared π a :
  step_key a ∉ substeps_with_separate_agent_nets π →
  network_key π a = ByStep (step_key a).
Proof. intros Hin. unfold network_key. by rewrite decide_False. Qed.

(** C3.  For an actor id that is not None, [network_for] indexes the registry
    with the full actor id when the step key is in the separate-agent-nets
    set and with the step key alone otherwise; an unregistered key raises
    KeyError.  With separate networks for step key 1 only, the actor ids
    (1, 0) and (1, 1) are looked up under two different keys and so yield the
    two networks registered there, and every actor id of step key 0 yields
    the network registered under key 0. *)
Theorem network_for_actor_id π a :
  (step_key a ∈ substeps_with_separate_agent_nets π →
     network_for π (Some a) = networks_getitem π (ByActor a))
  ∧ (step_key a ∉ substeps_with_separate_agent_nets π →
     network_for π (Some a) = networks_getitem π (ByStep (step_key a)))
  ∧ (∀ key, networks π !! key = None → networks_getitem π key = Raise (KeyError key))
  ∧ (∀ key net, networks π !! key = Some net → networks_getitem π key = Ok net)
  ∧ (substeps_with_separate_agent_nets π = {[ StepInt 1 ]} →
     ∀ net0 net10 net11,
       networks π !! ByStep (StepInt 0) = Some net0 →
       networks π !! ByActor (mkActorID (StepInt 1) 0) = Some net10 →
       networks π !! ByActor (mkActorID (StepInt 1) 1) = Some net11 →
       network_for π (Some (mkActorID (StepInt 1) 0)) = Ok net10
       ∧ network_for π (Some (mkActorID (StepInt 1) 1)) = Ok net11
       ∧ (net10 ≠ net11 →
          network_for π (Some (mkActorID (StepInt 1) 0))
          ≠ network_for π (Some (mkActorID (StepInt 1) 1)))
       ∧ ∀ agent, network_for π (Some (mkActorID (StepInt 0) agent)) = Ok net0).
Proof.
  split; [|split; [|split; [|split]]].
  - intros Hin. simpl. by rewrite network_key_separate.
  - intros Hout. simpl. by rewrite network_key_shared.
  - intros key Hnone. unfold networks_getitem. by rewrite Hnone.
  - intros key net Hsome. unfold networks_getitem. by rewrite Hsome.
  - intros Hsep net0 net10 net11 H0 H10 H11.
    assert (Hin : StepInt 1 ∈ substeps_with_separate_agent_nets π)
      by (rewrite Hsep; apply elem_of_singleton; reflexivity).
    assert (Hout : StepInt 0 ∉ substeps_with_separate_agent_nets π)
      by (rewrite Hsep, elem_of_singleton; discriminate).
    assert (Hget10 : network_for π (Some (mkActorID (StepInt 1) 0)) = Ok net10).
    { simpl. rewrite network_key_separate by exact Hin.
      unfold networks_getitem. by rewrite H10. }
    assert (Hget11 : network_for π (Some (mkActorID (StepInt 1) 1)) = Ok net11).
    { simpl. rewrite network_key_separate by exact Hin.
      unfold networks_getitem. by rewrite H11. }
    split; [done|]. split; [done|]. split.
    + intros Hne. rewrite Hget10, Hget11. congruence.
    + intros agent. simpl.
      rewrite network_key_shared by exact Hout.
      unfold networks_getitem. simpl. by rewrite H0.
Qed.

(** C4.  [network_for(None)] returns a network exactly when one network is
    registered, and then it is that one; with no network or more than one it
    fails the assertion and returns nothing. *)
Theorem network_for_None π :
  (∀ net, network_for π None = Ok net ↔ ∃ key, networks π = {[ key := net ]})
  ∧ ((∃ net, network_for π None = Ok net) ↔ size (networks π) = 1%nat)
  ∧ (size (networks π) ≠ 1%nat →
     network_for π None = Raise (AssertionError msg_multiple_networks)).
Proof.
  assert (Hone : ∀ net, network_for π None = Ok net
                        ↔ ∃ key, networks π = {[ key := net ]}).
  { intros net. simpl. split.
    - destruct (decide (size (networks π) = 1%nat)) as [Hsize|]; [|done].
      destruct (map_size_1_inv _ Hsize) as (k & v & Hm & Hl).
      rewrite Hl. simpl. intros [= <-]. by exists k.
    - intros [key Hm]. rewrite Hm, map_size_singleton, decide_True by done.
      by rewrite map_to_list_singleton. }
  split; [exact Hone|]. split.
  - split.
    + intros [net Hnet]. apply Hone in Hnet as [key Hm].
      rewrite Hm. apply map_size_singleton.
    + intros Hsize. destruct (map_size_1_inv _ Hsize) as (k & v & Hm & _).
      exists v. apply Hone. by exists k.
  - intros Hsize. simpl. by rewrite decide_False.
Qed.

End registry.

Lemma network_for_actor_id_witness :
  network_for fixtures.toy_policy (Some fixtures.a10) = Ok 2%positive
  ∧ network_for fixtures.toy_policy (Some fixtures.a11) = Ok 3%positive
  ∧ network_for fixtures.toy_policy (Some fixtures.a10)
    ≠ network_for fixtures.toy_policy (Some fixtures.a11)
  ∧ ∀ agent, network_for fixtures.toy_policy (Some (mkActorID (StepInt 0) agent))
             = Ok 1%positive.
Proof.
  destruct (network_for_actor_id fixtures.toy_policy fixtures.a10)
    as (_ & _ & _ & _ & Hscenario).
  destruct (Hscenario eq_refl 1%positive 2%positive 3%positive)
    as (H10 & H11 & Hne & H0); [reflexivity ..|].
  split; [exact H10|]. split; [exact H11|].
  split; [apply Hne; discriminate | exact H0].
Defined.

(** ** Splitting a network output into action and embedding logits *)

Section logits.
Context {T : Torch}.
Implicit Types (π : TorchPolicy) (σ : gmap ModuleRef ModuleState).
Implicit Types (network_out : gmap string Tensor) (key : string).

Lemma filter_in_lookup π network_out key :
  filter_in π network_out !! key
  = if decide (key ∈ action_space_keys π) then network_out !! key else None.
Proof.
  unfold filter_in. apply option_eq. intros x.
  rewrite map_lookup_filter_Some. simpl. case_decide as Hkey.
  - split; [by intros [? _] | by split].
  - split; [by intros [_ ?] | done].
Qed.

Lemma filter_not_in_lookup π network_out key :
  filter_not_in π network_out !! key
  = if decide (key ∈ action_space_keys π) then None else network_out !! key.
Proof.
  unfold filter_not_in. apply option_eq. intros x.
  rewrite map_lookup_filter_Some. simpl. case_decide as Hkey.
  - split; [by intros [_ ?] | done].
  - split; [by intros [? _] | by split].
Qed.

Lemma dom_filter_in π network_out :
  dom (filter_in π network_out) = dom network_out ∩ action_space_keys π.
Proof.
  apply set_eq. intros key.
  rewrite elem_of_intersection, !elem_of_dom, filter_in_lookup.
  case_decide; [tauto|]. split; [by intros [? ?]|tauto].
Qed.

Lemma dom_filter_not_in π network_out :
  dom (filter_not_in π network_out) = dom network_out ∖ action_space_keys π.
Proof.
  apply set_eq. intros key.
  rewrite elem_of_difference, !elem_of_dom, filter_not_in_lookup.
  case_decide; [|tauto]. split; [by intros [? ?]|tauto].
Qed.

Lemma any_key_outside_true π network_out :
  any_key_outside π network_out = true
  ↔ ∃ key, key ∈ dom network_out ∧ key ∉ action_space_keys π.
Proof.
  unfold any_key_outside, any. rewrite existsb_exists. split.
  - intros (b & Hin & Hb). apply list_elem_of_In in Hin.
    apply list_elem_of_fmap in Hin as (key & -> & Hkey).
    apply list_elem_of_fmap in Hkey as ([key' x] & -> & Hkx).
    apply elem_of_map_to_list in Hkx. exists key'. split.
    + by apply elem_of_dom_2 with x.
    + unfold id in Hb. by apply bool_decide_eq_true in Hb.
  - intros (key & Hdom & Hout). apply elem_of_dom in Hdom as [x Hx].
    exists true. split; [|done]. apply list_elem_of_In.
    apply list_elem_of_fmap. exists key. split.
    + symmetry. by apply bool_decide_eq_true.
    + apply list_elem_of_fmap. exists (key, x). split; [done|].
      by apply elem_of_map_to_list.
Qed.

Lemma any_key_outside_false π network_out :
  any_key_outside π network_out = false ↔ dom network_out ⊆ action_space_keys π.
Proof.
  rewrite <- not_true_iff_false, any_key_outside_true. split.
  - intros Hno key Hdom.
    destruct (decide (key ∈ action_space_keys π)) as [|Hout]; [done|].
    destruct Hno. by exists key.
  - intros Hsub (key & Hdom & Hout). by apply Hout, Hsub.
Qed.

Lemma filter_in_id π network_out :
  dom network_out ⊆ action_space_keys π → filter_in π network_out = network_out.
Proof.
  intros Hsub. apply map_filter_id. intros key x Hx. simpl.
  by apply Hsub, elem_of_dom_2 with x.
Qed.

(** Whichever branch is taken, the logits kept are those of the action space. *)
Lemma kept_logits π network_out :
  (if any_key_outside π network_out then filter_in π network_out else network_out)
  = filter_in π network_out.
Proof.
  destruct (any_key_outside π network_out) eqn:Hany; [done|].
  symmetry. by apply filter_in_id, any_key_outside_false.
Qed.

Lemma filter_not_in_nonempty π network_out :
  (0 < size (filter_not_in π network_out))%nat
  ↔ ∃ key, key ∈ dom network_out ∧ key ∉ action_space_keys π.
Proof.
  split.
  - intros Hpos.
    destruct (map_size_ne_0_lookup_1 (filter_not_in π network_out))
      as [key [x Hx]]; [lia|].
    rewrite filter_not_in_lookup in Hx. case_decide; [done|].
    exists key. split; [by apply elem_of_dom_2 with x|done].
  - intros (key & Hdom & Hout). apply elem_of_dom in Hdom as [x Hx].
    assert (size (filter_not_in π network_out) ≠ 0%nat); [|lia].
    apply map_size_ne_0_lookup_2 with key.
    rewrite filter_not_in_lookup, decide_False by done. by exists x.
Qed.

Lemma strict_superset_outside π network_out :
  action_space_keys π ⊂ dom network_out →
  ∃ key, key ∈ dom network_out ∧ key ∉ action_space_keys π.
Proof.
  intros [Hsub Hnot].
  destruct (any_key_outside π network_out) eqn:Hany.
  - by apply any_key_outside_true.
  - destruct Hnot. by apply any_key_outside_false.
Qed.

Lemma call_network_bound σ net s obs_t :
  σ !! net = Some s → call_network σ net obs_t = Ok (module_call s obs_t).
Proof. intros Hs. unfold call_network. by rewrite Hs. Qed.

(** C2.  When the keys of the network output strictly include the action
    space keys, the sub-step output holds as action logits the output
    restricted to the action space keys and as embedding logits the
    remaining entries, of which there is at least one; when the two key
    sets are equal, the action logits are the whole output, the embedding
    logits are None, and nothing is raised. *)
Theorem compute_substep_policy_output_partition
    π σ obs actor_id temperature net s :
  network_for π actor_id = Ok net →
  σ !! net = Some s →
  let network_out := module_call s (convert_to_torch obs (_device π)) in
  (action_space_keys π ⊂ dom network_out →
   ∃ out emb,
     compute_substep_policy_output π σ obs actor_id temperature = Ok out
     ∧ dom (action_logits out) = action_space_keys π
     ∧ (∀ key, key ∈ action_space_keys π →
               action_logits out !! key = network_out !! key)
     ∧ embedding_logits out = Some emb
     ∧ emb ≠ ∅
     ∧ dom emb = dom network_out ∖ action_space_keys π
     ∧ (∀ key, key ∉ action_space_keys π → emb !! key = network_out !! key))
  ∧ (dom network_out = action_space_keys π →
     ∃ out,
       compute_substep_policy_output π σ obs actor_id temperature = Ok out
       ∧ action_logits out = network_out
       ∧ embedding_logits out = None).
Proof.
  intros Hnet Hs network_out. split.
  - intros Hstrict.
    pose proof (strict_superset_outside _ _ Hstrict) as Hout.
    unfold compute_substep_policy_output.
    rewrite Hnet. simpl. rewrite (call_network_bound _ _ _ _ Hs). simpl.
    fold network_out.
    rewrite (proj2 (any_key_outside_true π network_out) Hout).
    eexists _, _. split; [reflexivity|]. simpl.
    split; [|split; [|split; [|split; [|split]]]].
    + rewrite dom_filter_in. destruct Hstrict as [Hsub _].
      apply set_eq. intros key. rewrite elem_of_intersection.
      split; [tauto|]. intros Hkey. split; [by apply Hsub|done].
    + intros key Hkey. by rewrite filter_in_lookup, decide_True.
    + reflexivity.
    + apply map_size_non_empty_iff.
      apply filter_not_in_nonempty in Hout. lia.
    + apply dom_filter_not_in.
    + intros key Hkey. by rewrite filter_not_in_lookup, decide_False.
  - intros Hdom.
    assert (Hsub : dom network_out ⊆ action_space_keys π) by (by rewrite Hdom).
    unfold compute_substep_policy_output.
    rewrite Hnet. simpl. rewrite (call_network_bound _ _ _ _ Hs). simpl.
    fold network_out.
    rewrite (proj2 (any_key_outside_false π network_out) Hsub).
    eexists. split; [reflexivity|]. done.
Qed.

(** C5.  With [return_embedding=True], [compute_logits_dict] fails its
    assertion when the network output has no key outside the action space;
    when it has one, the call returns the entries outside the action space
    as the embedding, and that dictionary is not empty. *)
Theorem compute_logits_dict_return_embedding π σ obs actor_id net s :
  network_for π actor_id = Ok net →
  σ !! net = Some s →
  let network_out := module_call s (convert_to_torch obs (_device π)) in
  (dom network_out ⊆ action_space_keys π →
   compute_logits_dict π σ obs actor_id true
   = Raise (AssertionError msg_no_embedding))
  ∧ ((∃ key, key ∈ dom network_out ∧ key ∉ action_space_keys π) →
     ∃ logits emb,
       compute_logits_dict π σ obs actor_id true = Ok (logits, Some emb)
       ∧ emb ≠ ∅
       ∧ dom emb = dom network_out ∖ action_space_keys π
       ∧ (∀ key, key ∉ action_space_keys π → emb !! key = network_out !! key)).
Proof.
  intros Hnet Hs network_out. split.
  - intros Hsub. unfold compute_logits_dict.
    rewrite Hnet. simpl. rewrite (call_network_bound _ _ _ _ Hs). simpl.
    fold network_out. rewrite decide_False; [done|].
    rewrite filter_not_in_nonempty. intros (key & Hdom & Hout).
    by apply Hout, Hsub.
  - intros Hout. unfold compute_logits_dict.
    rewrite Hnet. simpl. rewrite (call_network_bound _ _ _ _ Hs). simpl.
    fold network_out.
    rewrite decide_True by (by apply filter_not_in_nonempty). simpl.
    eexists _, _. split; [reflexivity|].
    split; [|split].
    + apply map_size_non_empty_iff.
      apply filter_not_in_nonempty in Hout. lia.
    + apply dom_filter_not_in.
    + intros key Hkey. by rewrite filter_not_in_lookup, decide_False.
Qed.

(** C9.  With [return_embedding=False], the second component returned by
    [compute_logits_dict] is None whatever the network emits, and the
    returned logits are the network output without the keys that are not
    in the action space. *)
Theorem compute_logits_dict_no_embedding π σ obs actor_id net s :
  network_for π actor_id = Ok net →
  σ !! net = Some s →
  let network_out := module_call s (convert_to_torch obs (_device π)) in
  ∃ logits,
    compute_logits_dict π σ obs actor_id false = Ok (logits, None)
    ∧ dom logits = dom network_out ∩ action_space_keys π
    ∧ (∀ key, key ∈ action_space_keys π → logits !! key = network_out !! key)
    ∧ (∀ key, key ∉ action_space_keys π → logits !! key = None).
Proof.
  intros Hnet Hs network_out. unfold compute_logits_dict.
  rewrite Hnet. simpl. rewrite (call_network_bound _ _ _ _ Hs). simpl.
  fold network_out. rewrite kept_logits.
  eexists. split; [reflexivity|]. split; [|split].
  - apply dom_filter_in.
  - intros key Hkey. by rewrite filter_in_lookup, decide_True.
  - intros key Hkey. by rewrite filter_in_lookup, decide_False.
Qed.

End logits.

Ltac by_computation := apply (bool_decide_unpack _); vm_compute; exact I.

Lemma compute_substep_policy_output_partition_witness :
  (∃ out emb,
     compute_substep_policy_output fixtures.toy_policy fixtures.toy_store 4
       (Some fixtures.a10) 1 = Ok out
     ∧ embedding_logits out = Some emb ∧ emb ≠ ∅)
  ∧ (∃ out,
       compute_substep_policy_output fixtures.toy_policy fixtures.toy_store 4
         (Some fixtures.a00) 1 = Ok out
       ∧ action_logits out = {[ "move" := 8 ]}
       ∧ embedding_logits out = None).
Proof.
  split.
  - destruct (compute_substep_policy_output_partition fixtures.toy_policy
                fixtures.toy_store 4 (Some fixtures.a10) 1 2%positive
                fixtures.agent0_net eq_refl eq_refl) as [Hstrict _].
    destruct Hstrict as (out & emb & Hout & _ & _ & Hemb & Hne & _);
      [by_computation|].
    exists out, emb. exact (conj Hout (conj Hemb Hne)).
  - destruct (compute_substep_policy_output_partition fixtures.toy_policy
                fixtures.toy_store 4 (Some fixtures.a00) 1 1%positive
                fixtures.shared_net eq_refl eq_refl) as [_ Hequal].
    destruct Hequal as (out & Hout & Hact & Hemb); [by_computation|].
    exists out. split; [exact Hout|]. split; [|exact Hemb].
    rewrite Hact. vm_compute. reflexivity.
Defined.

Lemma compute_logits_dict_return_embedding_witness :
  compute_logits_dict fixtures.toy_policy fixtures.toy_store 4
    (Some fixtures.a00) true = Raise (AssertionError msg_no_embedding)
  ∧ ∃ logits emb,
      compute_logits_dict fixtures.toy_policy fixtures.toy_store 4
        (Some fixtures.a10) true = Ok (logits, Some emb)
      ∧ emb ≠ ∅.
Proof.
  split.
  - apply (compute_logits_dict_return_embedding fixtures.toy_policy
             fixtures.toy_store 4 (Some fixtures.a00) 1%positive
             fixtures.shared_net eq_refl eq_refl).
    by_computation.
  - destruct (compute_logits_dict_return_embedding fixtures.toy_policy
                fixtures.toy_store 4 (Some fixtures.a10) 2%positive
                fixtures.agent0_net eq_refl eq_refl) as [_ Hextra].
    destruct Hextra as (logits & emb & Hret & Hne & _).
    { exists "latent". split; by_computation. }
    exists logits, emb. exact (conj Hret Hne).
Defined.

Lemma compute_logits_dict_no_embedding_witness :
  ∃ logits,
    compute_logits_dict fixtures.toy_policy fixtures.toy_store 4
      (Some fixtures.a10) false = Ok (logits, None)
    ∧ logits !! "move" = Some 12
    ∧ logits !! "latent" = None.
Proof.
  destruct (compute_logits_dict_no_embedding fixtures.toy_policy
              fixtures.toy_store 4 (Some fixtures.a10) 2%positive
              fixtures.agent0_net eq_refl eq_refl)
    as (logits & Hret & _ & Hin & Hout).
  exists logits. split; [exact Hret|]. split.
  - etrans; [apply Hin; by_computation|]. vm_compute. reflexivity.
  - apply Hout. by_computation.
Defined.

(** ** Policy outputs over a full step, and log probabilities *)

Section outputs.
Context {T : Torch}.
Implicit Types (π : TorchPolicy) (σ : gmap ModuleRef ModuleState).
Implicit Types (po : PolicyOutput) (out : PolicySubStepOutput).

Lemma compute_substep_policy_output_returns π σ obs actor_id temperature :
  resolves π σ actor_id →
  ∃ out, compute_substep_policy_output π σ obs actor_id temperature = Ok out.
Proof.
  intros (net & s & Hnet & Hs). unfold compute_substep_policy_output.
  rewrite Hnet. simpl. rewrite (call_network_bound _ _ _ _ Hs). simpl.
  destruct (any_key_outside _ _); eexists; reflexivity.
Qed.

Lemma compute_substep_policy_output_actor_id π σ obs aid temperature out :
  compute_substep_policy_output π σ obs aid temperature = Ok out →
  actor_id out = aid.
Proof.
  unfold compute_substep_policy_output.
  destruct (network_for π aid) as [net|]; simpl; [|done].
  destruct (call_network σ net _) as [network_out|]; simpl; [|done].
  destruct (any_key_outside π network_out); by intros [= <-].
Qed.

(** The loop of [compute_policy_output], started from any accumulator:
    every iteration appends the output of its entry. *)
Lemma compute_policy_output_loop π σ temperature records po :
  Forall (λ e, resolves π σ (record_actor_id e)) records →
  ∃ outs,
    Forall2 (λ e out,
               compute_substep_policy_output π σ (observation e)
                 (record_actor_id e) temperature = Ok out) records outs
    ∧ for_each
        (λ structured_policy_output substep_record,
           out ← compute_substep_policy_output π σ (observation substep_record)
                   (record_actor_id substep_record) temperature;
           Ok (append structured_policy_output out))
        po records
      = Ok {| _step_policy_outputs := _step_policy_outputs po ++ outs |}.
Proof.
  intros Hall. revert po. induction Hall as [|e records He _ IH]; intros po.
  - exists []. split; [constructor|]. simpl. rewrite app_nil_r. by destruct po.
  - destruct (compute_substep_policy_output_returns π σ (observation e)
                (record_actor_id e) temperature He) as [out Hout].
    destruct (IH (append po out)) as (outs & Houts & Hloop).
    exists (out :: outs). split; [by constructor|].
    simpl. rewrite Hout. simpl. rewrite Hloop. simpl.
    by rewrite <- app_assoc.
Qed.

(** An entry on which the sub-step call raises makes the whole call raise:
    no partial PolicyOutput is returned. *)
Lemma compute_policy_output_raises π σ record temperature e err :
  e ∈ substep_records record →
  compute_substep_policy_output π σ (observation e) (record_actor_id e)
    temperature = Raise err →
  ∃ err', compute_policy_output π σ record temperature = Raise err'.
Proof.
  intros Hin Hraise. unfold compute_policy_output.
  apply for_each_raises with (x := e); [done|].
  intros acc. rewrite Hraise. by eexists.
Qed.

Lemma compute_substep_policy_output_resolves π σ obs aid temperature out :
  compute_substep_policy_output π σ obs aid temperature = Ok out →
  resolves π σ aid.
Proof.
  unfold compute_substep_policy_output, resolves, call_network.
  destruct (network_for π aid) as [net|]; simpl; [|done].
  destruct (σ !! net) as [s|] eqn:Hs; simpl; [|done].
  intros _. by exists net, s.
Qed.

(** [compute_policy_output] returns exactly on the records whose actor ids
    all resolve. *)
Lemma compute_policy_output_returns_iff π σ record temperature :
  (∃ po, compute_policy_output π σ record temperature = Ok po)
  ↔ Forall (λ e, resolves π σ (record_actor_id e)) (substep_records record).
Proof.
  split.
  - intros [po Hpo]. apply Forall_forall. intros e Hin.
    destruct (compute_substep_policy_output π σ (observation e)
                (record_actor_id e) temperature) as [out|err] eqn:He.
    + by eapply compute_substep_policy_output_resolves.
    + destruct (compute_policy_output_raises _ _ _ _ _ _ Hin He) as [err' Herr].
      congruence.
  - intros Hall.
    destruct (compute_policy_output_loop π σ temperature _ PolicyOutput_new Hall)
      as (outs & _ & Hloop).
    eexists. exact Hloop.
Qed.

Lemma getitem_nat po (i : nat) :
  getitem po (Z.of_nat i)
  = match _step_policy_outputs po !! i with
    | Some out => Ok out
    | None => Raise IndexError
    end.
Proof.
  unfold getitem. cbv zeta.
  destruct (decide (Z.of_nat i < 0)) as [Hneg|_]; [lia|].
  destruct (decide (Z.of_nat i < 0)) as [Hneg|_]; [lia|].
  by rewrite Nat2Z.id.
Qed.

(** C1.  For a record of k sub-step entries whose actor ids all resolve to a
    network, [compute_policy_output] returns a PolicyOutput of exactly k
    sub-step outputs; the i-th one is the output of
    [compute_substep_policy_output] on the i-th entry, and [actor_ids()[i]]
    is the actor id of the i-th entry. *)
Theorem compute_policy_output_in_order π σ record temperature :
  Forall (λ e, resolves π σ (record_actor_id e)) (substep_records record) →
  ∃ po,
    compute_policy_output π σ record temperature = Ok po
    ∧ length (_step_policy_outputs po) = length (substep_records record)
    ∧ actor_ids po = record_actor_id <$> substep_records record
    ∧ ∀ (i : nat) e,
        substep_records record !! i = Some e →
        ∃ out,
          compute_substep_policy_output π σ (observation e)
            (record_actor_id e) temperature = Ok out
          ∧ getitem po (Z.of_nat i) = Ok out
          ∧ actor_ids po !! i = Some (record_actor_id e).
Proof.
  intros Hall.
  destruct (compute_policy_output_loop π σ temperature _ PolicyOutput_new Hall)
    as (outs & Houts & Hloop).
  simpl in Hloop. eexists. split; [exact Hloop|]. simpl.
  assert (Hith : ∀ (i : nat) e,
             substep_records record !! i = Some e →
             ∃ out,
               compute_substep_policy_output π σ (observation e)
                 (record_actor_id e) temperature = Ok out
               ∧ outs !! i = Some out).
  { intros i e He.
    destruct (Forall2_lookup_l _ _ _ _ _ Houts He) as (out & Hi & Hout).
    by exists out. }
  split; [|split].
  - symmetry. by eapply Forall2_length.
  - unfold actor_ids. simpl. apply list_eq. intros i.
    change (map (λ x, actor_id x) outs) with (actor_id <$> outs).
    rewrite !list_lookup_fmap.
    destruct (substep_records record !! i) as [e|] eqn:He; simpl.
    + destruct (Hith i e He) as (out & Hout & ->). simpl.
      by rewrite (compute_substep_policy_output_actor_id _ _ _ _ _ _ Hout).
    + apply lookup_ge_None_1 in He.
      rewrite (Forall2_length _ _ _ Houts) in He.
      by rewrite (lookup_ge_None_2 outs i He).
  - intros i e He. destruct (Hith i e He) as (out & Hout & Hi).
    exists out. split; [done|]. split.
    + rewrite getitem_nat. simpl. by rewrite Hi.
    + unfold actor_ids. simpl.
      change (map (λ x, actor_id x) outs) with (actor_id <$> outs).
      rewrite list_lookup_fmap, Hi. simpl.
      by rewrite (compute_substep_policy_output_actor_id _ _ _ _ _ _ Hout).
Qed.

(** C6.  [compute_action_log_probs] fails its assertion when the number of
    sub-step outputs differs from the number of actions; otherwise it
    returns a list as long as the actions whose i-th element is the log
    probability of [actions[i]] under the distribution of
    [policy_output[i]].  The function is pure: it reads its two arguments
    and touches no store. *)
Theorem compute_action_log_probs_spec po (actions : list Action) :
  (length (_step_policy_outputs po) ≠ length actions →
   compute_action_log_probs po actions = Raise (AssertionError EmptyString))
  ∧ (length (_step_policy_outputs po) = length actions →
     ∃ res,
       compute_action_log_probs po actions = Ok res
       ∧ length res = length actions
       ∧ ∀ (i : nat) ac,
           actions !! i = Some ac →
           ∃ out, getitem po (Z.of_nat i) = Ok out
                  ∧ res !! i = Some (log_prob (prob_dist out) ac)).
Proof.
  unfold compute_action_log_probs, prob_dist_list. rewrite length_fmap.
  split; intros Hlen.
  - by rewrite decide_False.
  - rewrite decide_True by done. eexists. split; [reflexivity|]. split.
    + rewrite length_fmap, length_zip, length_fmap. lia.
    + intros i ac Hac.
      destruct (lookup_lt_is_Some_2 (_step_policy_outputs po) i) as [out Hout].
      { rewrite Hlen. by eapply lookup_lt_Some. }
      exists out. split.
      * rewrite getitem_nat. by rewrite Hout.
      * rewrite list_lookup_fmap.
        rewrite (proj2 (lookup_zip_with_Some pair _ _ i (prob_dist out, ac))).
        { done. }
        exists (prob_dist out), ac. split; [done|]. split; [|done].
        by rewrite list_lookup_fmap, Hout.
Qed.

End outputs.

Lemma compute_policy_output_in_order_witness :
  ∃ po,
    compute_policy_output fixtures.toy_policy fixtures.toy_store
      fixtures.toy_record 1 = Ok po
    ∧ length (_step_policy_outputs po) = 3%nat
    ∧ actor_ids po = [Some fixtures.a00; Some fixtures.a10; Some fixtures.a11].
Proof.
  destruct (compute_policy_output_in_order fixtures.toy_policy
              fixtures.toy_store fixtures.toy_record 1)
    as (po & Hpo & Hlen & Hids & _).
  { constructor; [|constructor; [|constructor; [|constructor]]].
    - exists 1%positive, fixtures.shared_net. split; reflexivity.
    - exists 2%positive, fixtures.agent0_net. split; reflexivity.
    - exists 3%positive, fixtures.agent1_net. split; reflexivity. }
  exists po. exact (conj Hpo (conj Hlen Hids)).
Defined.

Lemma compute_action_log_probs_spec_witness :
  compute_action_log_probs fixtures.toy_output [1; 2]
  = Raise (AssertionError EmptyString)
  ∧ ∃ res,
      compute_action_log_probs fixtures.toy_output [3] = Ok res
      ∧ length res = 1%nat
      ∧ res !! 0%nat = Some 5.
Proof.
  split.
  - apply (compute_action_log_probs_spec fixtures.toy_output [1; 2]).
    simpl. lia.
  - destruct (compute_action_log_probs_spec fixtures.toy_output [3])
      as [_ Hsame].
    destruct (Hsame eq_refl) as (res & Hres & Hlen & Hith).
    exists res. split; [exact Hres|]. split; [exact Hlen|].
    destruct (Hith 0%nat 3 eq_refl) as (out & Hout & Hlp).
    injection Hout as <-. exact Hlp.
Defined.

(** ** Serialisation: [state_dict] and [load_state_dict] *)

Section serialisation.
Context {T : Torch}.
Implicit Types (π : TorchPolicy) (σ : gmap ModuleRef ModuleState).
Implicit Types (key : NetKey) (net : ModuleRef).
Implicit Types (sd : gmap string (gmap NetKey ModuleStateDict)).
Implicit Types (sdp : gmap NetKey ModuleStateDict).

Lemma network_state_dict_bound σ net s :
  σ !! net = Some s → network_state_dict σ net = Ok (module_state_dict s).
Proof. intros Hs. unfold network_state_dict. by rewrite Hs. Qed.

Lemma network_load_own_state_dict `{!ModuleRoundTrip T} σ net s :
  σ !! net = Some s →
  network_load_state_dict σ net (module_state_dict s) = Ok σ.
Proof.
  intros Hs. unfold network_load_state_dict.
  by rewrite Hs, module_load_own_state_dict, insert_id.
Qed.

(** The loop of [state_dict] over registry items with distinct keys. *)
Lemma state_dict_loop σ (items : list (NetKey * ModuleRef)) :
  NoDup items.*1 →
  (∀ key net, (key, net) ∈ items → is_Some (σ !! net)) →
  ∀ acc : gmap NetKey ModuleStateDict,
  ∃ sdp,
    for_each
      (λ (state_dict_policies : gmap NetKey ModuleStateDict) '(key, policy),
         sd ← network_state_dict σ policy;
         Ok (<[key := sd]> state_dict_policies))
      acc items = Ok sdp
    ∧ (∀ key net, (key, net) ∈ items →
         ∃ s, σ !! net = Some s ∧ sdp !! key = Some (module_state_dict s))
    ∧ (∀ key, key ∉ items.*1 → sdp !! key = acc !! key).
Proof.
  induction items as [|[key0 net0] items IH]; intros Hnodup Hbound acc.
  - exists acc. split; [done|]. split; [|done].
    intros key net Hin. by apply not_elem_of_nil in Hin.
  - apply NoDup_cons in Hnodup as [Hfresh Hnodup].
    destruct (Hbound key0 net0) as [s0 Hs0]; [apply list_elem_of_here|].
    destruct (IH Hnodup) with (acc := <[key0 := module_state_dict s0]> acc)
      as (sdp & Hloop & Hitems & Hrest).
    { intros key net Hin. apply (Hbound key net). by apply list_elem_of_further. }
    exists sdp. split; [|split].
    + simpl. rewrite (network_state_dict_bound _ _ _ Hs0). simpl. exact Hloop.
    + intros key net Hin. apply elem_of_cons in Hin as [[= -> ->]|Hin].
      * exists s0. split; [done|].
        rewrite (Hrest key0 Hfresh). apply lookup_insert_eq.
      * by apply Hitems.
    + intros key Hkey. apply not_elem_of_cons in Hkey as [Hne Hkey].
      rewrite (Hrest key Hkey). by apply lookup_insert_ne.
Qed.

(** Loading into every module the state dict read from that very module
    leaves the store as it is. *)
Lemma load_state_dict_loop `{!ModuleRoundTrip T} σ sdp
    (items : list (NetKey * ModuleRef)) :
  (∀ key net, (key, net) ∈ items →
     ∃ s, σ !! net = Some s ∧ sdp !! key = Some (module_state_dict s)) →
  for_each
    (λ (σ : gmap ModuleRef ModuleState) '(key, policy),
       match sdp !! key with
       | Some sd => network_load_state_dict σ policy sd
       | None => Raise (AssertionErrorAt msg_no_state_dict key)
       end)
    σ items = Ok σ.
Proof.
  induction items as [|[key0 net0] items IH]; intros Hitems; [done|].
  destruct (Hitems key0 net0) as (s0 & Hs0 & Hsd0); [apply list_elem_of_here|].
  simpl. rewrite Hsd0, (network_load_own_state_dict _ _ _ Hs0). simpl.
  apply IH. intros key net Hin. apply Hitems. by apply list_elem_of_further.
Qed.

(** C7, as the code has it.  When the supplied state dict has the top-level
    key "policies", [load_state_dict] raises if some registered key has no
    entry below it, and entries for keys that are not registered change
    nothing; when the supplied state dict has no key "policies", nothing is
    loaded and nothing is raised. *)
Theorem load_state_dict_missing_entry π sd σ :
  (∀ sdp key,
     sd !! "policies" = Some sdp →
     key ∈ dom (networks π) →
     sdp !! key = None →
     ∃ e, load_state_dict π sd σ = Raise e)
  ∧ (∀ sdp extra,
       sd !! "policies" = Some sdp →
       dom extra ## dom (networks π) →
       load_state_dict π (<["policies" := sdp ∪ extra]> sd) σ
       = load_state_dict π sd σ)
  ∧ (sd !! "policies" = None → load_state_dict π sd σ = Ok σ).
Proof.
  split; [|split].
  - intros sdp key Hsd Hreg Hmiss.
    apply elem_of_dom in Hreg as [net Hnet].
    unfold load_state_dict. rewrite Hsd.
    apply for_each_raises with (x := (key, net)).
    + by apply elem_of_map_to_list.
    + intros acc. rewrite Hmiss. by eexists.
  - intros sdp extra Hsd Hdisj.
    unfold load_state_dict. rewrite lookup_insert_eq, Hsd.
    apply for_each_ext. intros acc [key net] Hin.
    apply elem_of_map_to_list in Hin.
    assert (Hextra : extra !! key = None).
    { apply not_elem_of_dom. intros Hkey.
      apply (Hdisj key Hkey). by apply elem_of_dom_2 with net. }
    rewrite lookup_union, Hextra. by destruct (sdp !! key).
  - intros Hsd. unfold load_state_dict. by rewrite Hsd.
Qed.

(** C8.  When every registered network has a state, [state_dict] returns a
    dictionary with the single key "policies", under which every registry
    key holds the state dict of its network, and loading that dictionary
    back succeeds and leaves every network in the state it had, so that
    each network computes the same outputs as before. *)
Theorem load_state_dict_state_dict `{!ModuleRoundTrip T} π σ :
  (∀ key net, networks π !! key = Some net → is_Some (σ !! net)) →
  ∃ sdp σ',
    state_dict π σ = Ok {[ "policies" := sdp ]}
    ∧ dom sdp = dom (networks π)
    ∧ (∀ key net, networks π !! key = Some net →
         ∃ s, σ !! net = Some s ∧ sdp !! key = Some (module_state_dict s))
    ∧ load_state_dict π {[ "policies" := sdp ]} σ = Ok σ'
    ∧ σ' = σ
    ∧ ∀ net obs_t, call_network σ' net obs_t = call_network σ net obs_t.
Proof.
  intros Hbound.
  destruct (state_dict_loop σ (map_to_list (networks π))) with (acc := (∅ : gmap NetKey ModuleStateDict))
    as (sdp & Hloop & Hitems & Hrest).
  { apply NoDup_fst_map_to_list. }
  { intros key net Hin. apply (Hbound key net). by apply elem_of_map_to_list. }
  assert (Hreg : ∀ key net, networks π !! key = Some net →
            ∃ s, σ !! net = Some s ∧ sdp !! key = Some (module_state_dict s)).
  { intros key net Hnet. apply Hitems. by apply elem_of_map_to_list. }
  exists sdp, σ. split; [|split; [|split; [|split; [|split]]]].
  - unfold state_dict. rewrite Hloop. done.
  - apply set_eq. intros key. rewrite !elem_of_dom. split.
    + intros Hkey. destruct (networks π !! key) as [net|] eqn:Hnet; [done|].
      rewrite Hrest in Hkey; [by rewrite lookup_empty in Hkey|].
      intros Hin. apply list_elem_of_fmap in Hin as ([key' net] & -> & Hin).
      apply elem_of_map_to_list in Hin. simpl in Hnet. congruence.
    + intros [net Hnet]. destruct (Hreg key net Hnet) as (s & _ & ->). done.
  - exact Hreg.
  - unfold load_state_dict. rewrite lookup_singleton_eq.
    apply load_state_dict_loop. intros key net Hin.
    apply Hreg. by apply elem_of_map_to_list.
  - reflexivity.
  - reflexivity.
Qed.

End serialisation.

Lemma load_state_dict_missing_entry_witness :
  (∃ e, load_state_dict fixtures.toy_policy fixtures.partial_state_dict
          fixtures.toy_store = Raise e)
  ∧ load_state_dict fixtures.single_policy fixtures.critics_only
      fixtures.toy_store = Ok fixtures.toy_store.
Proof.
  split.
  - destruct (load_state_dict_missing_entry fixtures.toy_policy
                fixtures.partial_state_dict fixtures.toy_store) as [Hmiss _].
    apply (Hmiss {[ ByStep (StepInt 0) := fixtures.shared_net ]}
                 (ByActor fixtures.a10)).
    + reflexivity.
    + by_computation.
    + reflexivity.
  - destruct (load_state_dict_missing_entry fixtures.single_policy
                fixtures.critics_only fixtures.toy_store) as (_ & _ & Habsent).
    apply Habsent. reflexivity.
Defined.

(** C7 as the claim states it fails: the key 0 is registered, the supplied
    state dict has no entry for it (it has no key "policies" at all), and
    [load_state_dict] returns without raising, the store unchanged. *)
Lemma load_state_dict_without_policies_key :
  ByStep (StepInt 0) ∈ dom (networks fixtures.single_policy)
  ∧ (fixtures.critics_only !! "policies" ≫= λ sdp, sdp !! ByStep (StepInt 0))
    = None
  ∧ load_state_dict fixtures.single_policy fixtures.critics_only
      fixtures.toy_store = Ok fixtures.toy_store.
Proof.
  split; [by_computation|]. split; reflexivity.
Qed.

Lemma toy_round_trip : ModuleRoundTrip fixtures.toy_torch.
Proof. intros s. simpl. by rewrite decide_True. Qed.

Lemma load_state_dict_state_dict_witness :
  ∃ sdp,
    state_dict fixtures.toy_policy fixtures.toy_store
    = Ok {[ "policies" := sdp ]}
    ∧ sdp !! ByActor fixtures.a11 = Some fixtures.agent1_net
    ∧ load_state_dict fixtures.toy_policy {[ "policies" := sdp ]}
        fixtures.toy_store = Ok fixtures.toy_store.
Proof.
  destruct (@load_state_dict_state_dict fixtures.toy_torch toy_round_trip
              fixtures.toy_policy fixtures.toy_store)
    as (sdp & σ' & Hsd & _ & Hreg & Hload & -> & _).
  { apply (bool_decide_unpack _). vm_compute. exact I. }
  exists sdp. split; [exact Hsd|]. split; [|exact Hload].
  destruct (Hreg (ByActor fixtures.a11) 3%positive eq_refl) as (s & Hs & Hentry).
  injection Hs as <-. exact Hentry.
Defined.

(** ** The dummy structured core environment *)

Section dummy_env.
Import dummy_structured_core_env.
Context {C : Collaborators}.
Implicit Types (self : DummyStructuredCoreEnvironment) (maze_action : MazeAction).

Lemma get_maze_state_keeps self :
  current_agent (get_maze_state self).2 = current_agent self
  ∧ context (get_maze_state self).2 = context self
  ∧ reward_aggregator (get_maze_state self).2 = reward_aggregator self
  ∧ (get_maze_state self).1 = (sample (observation_space self)).1.
Proof.
  unfold get_maze_state. by destruct (sample (observation_space self)).
Qed.

Lemma reset_current_agent self : current_agent (reset self).2 = 0.
Proof.
  unfold reset, get_maze_state. simpl.
  by destruct (sample (observation_space self)).
Qed.

Lemma step_first_agent self maze_action :
  current_agent self = 0 →
  let '((_, reward, done, info), self') := step self maze_action in
  reward = zero ∧ done = false ∧ info = ∅
  ∧ current_agent self' = 1
  ∧ context self' = context self
  ∧ reward_aggregator self' = reward_aggregator self.
Proof.
  intros Hagent. unfold step. rewrite decide_True by done.
  unfold get_maze_state. simpl.
  by destruct (sample (observation_space self)).
Qed.

Lemma step_other_agent self maze_action :
  current_agent self ≠ 0 →
  let '((_, reward, done, info), self') := step self maze_action in
  reward = (summarize_reward (reward_aggregator self)).1
  ∧ done = false ∧ info = ∅
  ∧ current_agent self' = 0
  ∧ context self' = increment_env_step (context self).
Proof.
  intros Hagent. unfold step. rewrite decide_False by done.
  unfold get_maze_state. simpl.
  destruct (sample (observation_space self)). simpl.
  by destruct (summarize_reward (reward_aggregator self)).
Qed.

Lemma reachable_current_agent self :
  reachable self → current_agent self = 0 ∨ current_agent self = 1.
Proof.
  induction 1 as [space ctx agg | self _ _ | self maze_action _ _].
  - by left.
  - left. apply reset_current_agent.
  - destruct (decide (current_agent self = 0)) as [Hzero|Hother].
    + right. pose proof (step_first_agent self maze_action Hzero) as Hstep.
      destruct (step self maze_action) as [[[[obs reward] done] info] self'].
      simpl. tauto.
    + left. pose proof (step_other_agent self maze_action Hother) as Hstep.
      destruct (step self maze_action) as [[[[obs reward] done] info] self'].
      simpl. tauto.
Qed.

(** C10.  In every environment built by the constructor and driven by
    [reset] and [step], [current_agent] is 0 or 1.  [reset] sets it to 0 and
    [step] toggles it; a step taken at agent 0 returns the reward 0 and
    leaves the context untouched, a step taken at agent 1 returns the
    aggregated reward and increments the env step of the context; and
    [actor_id()] is the pair (0, current_agent). *)
Theorem current_agent_invariant self maze_action :
  reachable self →
  (current_agent self = 0 ∨ current_agent self = 1)
  ∧ current_agent (reset self).2 = 0
  ∧ current_agent (step self maze_action).2 = 1 - current_agent self
  ∧ (current_agent self = 0 →
     (step self maze_action).1.1.1.2 = zero
     ∧ context (step self maze_action).2 = context self)
  ∧ (current_agent self = 1 →
     (step self maze_action).1.1.1.2
     = (summarize_reward (reward_aggregator self)).1
     ∧ context (step self maze_action).2 = increment_env_step (context self))
  ∧ actor_id self = (0, current_agent self).
Proof.
  intros Hreach.
  pose proof (reachable_current_agent self Hreach) as Hinv.
  split; [exact Hinv|]. split; [apply reset_current_agent|].
  split; [|split; [|split; [|reflexivity]]].
  - destruct Hinv as [Hzero|Hone].
    + pose proof (step_first_agent self maze_action Hzero) as Hstep.
      destruct (step self maze_action) as [[[[obs reward] done] info] self'].
      simpl. rewrite Hzero. tauto.
    + assert (Hother : current_agent self ≠ 0) by lia.
      pose proof (step_other_agent self maze_action Hother) as Hstep.
      destruct (step self maze_action) as [[[[obs reward] done] info] self'].
      simpl. rewrite Hone. tauto.
  - intros Hzero.
    pose proof (step_first_agent self maze_action Hzero) as Hstep.
    destruct (step self maze_action) as [[[[obs reward] done] info] self'].
    simpl. tauto.
  - intros Hone. assert (Hother : current_agent self ≠ 0) by lia.
    pose proof (step_other_agent self maze_action Hother) as Hstep.
    destruct (step self maze_action) as [[[[obs reward] done] info] self'].
    simpl. tauto.
Qed.

End dummy_env.

Lemma current_agent_invariant_witness :
  let self :=
    (dummy_structured_core_env.step
       (dummy_structured_core_env.init (C := fixtures.toy_collaborators) 10 0 7)
       tt).2 in
  dummy_structured_core_env.current_agent self = 1
  ∧ dummy_structured_core_env.current_agent
      (dummy_structured_core_env.step self tt).2 = 0
  ∧ (dummy_structured_core_env.step self tt).1.1.1.2 = 7
  ∧ dummy_structured_core_env.context (dummy_structured_core_env.step self tt).2
    = 1
  ∧ dummy_structured_core_env.actor_id self = (0, 1).
Proof.
  intros self.
  destruct (current_agent_invariant (C := fixtures.toy_collaborators) self tt)
    as (_ & _ & Htoggle & _ & Hsecond & Hid).
  { apply dummy_structured_core_env.reachable_step,
      dummy_structured_core_env.reachable_init. }
  destruct (Hsecond eq_refl) as [Hreward Hcontext].
  split; [reflexivity|]. split; [exact Htoggle|].
  split; [exact Hreward|]. split; [exact Hcontext | exact Hid].
Defined.

Lemma network_for_None_witness :
  network_for fixtures.single_policy None = Ok 1%positive
  ∧ network_for fixtures.toy_policy None
    = Raise (AssertionError msg_multiple_networks).
Proof.
  destruct (network_for_None fixtures.single_policy) as (Hone & _ & _).
  destruct (network_for_None fixtures.toy_policy) as (_ & _ & Hmany).
  split.
  - apply Hone. exists (ByStep (StepInt 0)). reflexivity.
  - apply Hmany. vm_compute. discriminate.
Defined.

(** * Further properties of the policy *)

(** ** Indexing a [PolicyOutput] *)

Section policy_output.
Context {T : Torch}.
Implicit Types (po : PolicyOutput) (out value : PolicySubStepOutput).

Lemma getitem_inside po (i : Z) :
  0 ≤ i < Z.of_nat (length (_step_policy_outputs po)) →
  ∃ out, getitem po i = Ok out ∧ _step_policy_outputs po !! Z.to_nat i = Some out.
Proof.
  intros Hi.
  destruct (lookup_lt_is_Some_2 (_step_policy_outputs po) (Z.to_nat i))
    as [out Hout]; [lia|].
  exists out. split; [|done].
  rewrite <- (Z2Nat.id i) at 1 by lia. by rewrite getitem_nat, Hout.
Qed.

Lemma getitem_negative po (item : Z) :
  item < 0 →
  ((0 ≤ item + Z.of_nat (length (_step_policy_outputs po)))%Z
   ∧ getitem po item
     = getitem po (item + Z.of_nat (length (_step_policy_outputs po))))
  ∨ (item + Z.of_nat (length (_step_policy_outputs po)) < 0
     ∧ getitem po item = Raise IndexError).
Proof.
  intros Hneg. unfold getitem. cbv zeta.
  destruct (decide (item < 0)) as [_|Hpos]; [|lia].
  destruct (decide (item + Z.of_nat (length (_step_policy_outputs po)) < 0))
    as [Hlow|Hlow]; [by right; split|left].
  split; [lia|]. cbv beta iota.
  by destruct (decide (item + Z.of_nat (length (_step_policy_outputs po)) < 0)).
Qed.

(** X1.  [policy_output[item]] returns an element exactly for
    -len <= item < len, where a negative item counts from the end; any
    other item raises IndexError. *)
Theorem getitem_bounds po (item : Z) :
  let len := Z.of_nat (length (_step_policy_outputs po)) in
  (- len ≤ item < len →
   ∃ out, getitem po item = Ok out
          ∧ _step_policy_outputs po !! Z.to_nat (item `mod` len) = Some out)
  ∧ (¬ (- len ≤ item < len) → getitem po item = Raise IndexError).
Proof.
  intros len. split.
  - intros Hitem. destruct (decide (item < 0)) as [Hneg|Hpos].
    + destruct (getitem_negative po item Hneg) as [[_ Heq]|[Hlow _]]; [|lia].
      destruct (getitem_inside po (item + len)) as (out & Hout & Hi); [lia|].
      exists out. split; [by rewrite Heq|].
      replace (item `mod` len) with (item + len); [done|].
      apply Z.mod_unique with (-1); lia.
    + destruct (getitem_inside po item) as (out & Hout & Hi); [lia|].
      exists out. split; [done|]. by rewrite Z.mod_small by lia.
  - intros Hout. destruct (decide (item < 0)) as [Hneg|Hpos].
    + destruct (getitem_negative po item Hneg) as [[Hlow _]|[_ Herr]]; [|done].
      fold len in Hlow. lia.
    + unfold getitem. cbv zeta.
      destruct (decide (item < 0)) as [Hneg|_]; [lia|]. cbv beta iota.
      destruct (decide (item < 0)) as [Hneg|_]; [lia|].
      by rewrite lookup_ge_None_2 by (fold len in Hout; lia).
Qed.


End policy_output.

Lemma getitem_bounds_witness :
  getitem fixtures.toy_output (-1) = getitem fixtures.toy_output 0
  ∧ getitem fixtures.toy_output 1 = Raise IndexError
  ∧ getitem fixtures.toy_output (-2) = Raise IndexError.
Proof.
  destruct (getitem_bounds fixtures.toy_output (-1)) as [Hlast _].
  destruct (getitem_bounds fixtures.toy_output 0) as [Hfirst _].
  destruct (getitem_bounds fixtures.toy_output 1) as [_ Hhigh].
  destruct (getitem_bounds fixtures.toy_output (-2)) as [_ Hlow].
  destruct Hlast as (out & -> & Hout); [simpl; lia|].
  destruct Hfirst as (out' & -> & Hout'); [simpl; lia|].
  split; [|split].
  - simpl in Hout, Hout'. congruence.
  - apply Hhigh. simpl. lia.
  - apply Hlow. simpl. lia.
Defined.

(** ** Sub-step outputs and full-step outputs *)

Section pipeline.
Context {T : Torch}.
Implicit Types (π : TorchPolicy) (σ : gmap ModuleRef ModuleState).
Implicit Types (po : PolicyOutput) (out : PolicySubStepOutput).
Implicit Types (records : list SpacesRecord).

Lemma for_each_app {A B : Type} (body : B → A → Result B) (l1 l2 : list A) acc :
  for_each body acc (l1 ++ l2)
  = acc' ← for_each body acc l1; for_each body acc' l2.
Proof.
  revert acc. induction l1 as [|x l1 IH]; intros acc; [done|].
  simpl. destruct (body acc x) as [acc'|e]; simpl; [apply IH|done].
Qed.

(** The loop of [compute_policy_output] started from [po] appends to [po]
    what the loop started from the empty output returns. *)
Lemma compute_policy_output_from π σ temperature records po :
  for_each
    (λ structured_policy_output substep_record,
       out ← compute_substep_policy_output π σ (observation substep_record)
               (record_actor_id substep_record) temperature;
       Ok (append structured_policy_output out))
    po records
  = po' ← compute_policy_output π σ {| substep_records := records |} temperature;
    Ok {| _step_policy_outputs :=
            _step_policy_outputs po ++ _step_policy_outputs po' |}.
Proof.
  unfold compute_policy_output. simpl. revert po.
  induction records as [|e records IH]; intros po.
  - simpl. rewrite app_nil_r. by destruct po.
  - simpl.
    destruct (compute_substep_policy_output π σ (observation e)
                (record_actor_id e) temperature) as [out|err]; simpl; [|done].
    rewrite (IH (append po out)), (IH (append PolicyOutput_new out)).
    destruct (for_each _ PolicyOutput_new records) as [po'|err]; simpl; [|done].
    by rewrite <- app_assoc.
Qed.

(** X3.  [compute_policy_output] on a record that is the concatenation of
    two records returns the concatenation of the two outputs, and raises
    what the first raises, or else what the second raises. *)
Theorem compute_policy_output_app π σ temperature records1 records2 :
  compute_policy_output π σ {| substep_records := records1 ++ records2 |}
    temperature
  = po1 ← compute_policy_output π σ {| substep_records := records1 |} temperature;
    po2 ← compute_policy_output π σ {| substep_records := records2 |} temperature;
    Ok {| _step_policy_outputs :=
            _step_policy_outputs po1 ++ _step_policy_outputs po2 |}.
Proof.
  unfold compute_policy_output. simpl. rewrite for_each_app.
  destruct (for_each _ PolicyOutput_new records1) as [po1|err]; simpl; [|done].
  apply (compute_policy_output_from π σ temperature records2 po1).
Qed.

(** X4.  The exception of [compute_policy_output] is the one of the first
    entry whose sub-step call raises: when the entries before position i
    all resolve and the call on entry i raises [err], the whole call raises
    [err] and returns no partial output. *)
Theorem compute_policy_output_first_error π σ temperature record (i : nat) e err :
  substep_records record !! i = Some e →
  Forall (λ e', resolves π σ (record_actor_id e')) (take i (substep_records record)) →
  compute_substep_policy_output π σ (observation e) (record_actor_id e)
    temperature = Raise err →
  compute_policy_output π σ record temperature = Raise err.
Proof.
  intros Hi Hbefore Herr. destruct record as [records]. simpl in *.
  destruct (compute_policy_output_loop π σ temperature _ PolicyOutput_new
              Hbefore) as (outs & _ & Hloop).
  unfold compute_policy_output. simpl.
  rewrite <- (take_drop_middle records i e Hi), for_each_app, Hloop.
  simpl. by rewrite Herr.
Qed.

(** What [compute_logits_dict] returns without the embedding, in terms of
    the sub-step output. *)
Lemma compute_logits_dict_false π σ obs aid temperature :
  compute_logits_dict π σ obs aid false
  = (out ← compute_substep_policy_output π σ obs aid temperature;
     Ok (action_logits out, None)).
Proof.
  unfold compute_logits_dict, compute_substep_policy_output.
  destruct (network_for π aid) as [net|]; simpl; [|done].
  destruct (call_network σ net _) as [network_out|]; simpl; [|done].
  by destruct (any_key_outside π network_out).
Qed.

Lemma compute_substep_policy_output_prob_dist π σ obs aid temperature out :
  compute_substep_policy_output π σ obs aid temperature = Ok out →
  prob_dist out = logits_dict_to_distribution (action_logits out) temperature.
Proof.
  unfold compute_substep_policy_output.
  destruct (network_for π aid) as [net|]; simpl; [|done].
  destruct (call_network σ net _) as [network_out|]; simpl; [|done].
  destruct (any_key_outside π network_out); by intros [= <-].
Qed.

(** X5.  A sub-step output splits the network output and loses nothing:
    the action logits and the embedding logits together are the network
    output, the action logits have keys of the action space only, the
    embedding logits have none of them, and the embedding is None exactly
    when the network emitted no key outside the action space. *)
Theorem compute_substep_policy_output_split π σ obs aid temperature out :
  compute_substep_policy_output π σ obs aid temperature = Ok out →
  ∃ net s,
    network_for π aid = Ok net ∧ σ !! net = Some s
    ∧ let network_out := module_call s (convert_to_torch obs (_device π)) in
      action_logits out ∪ default ∅ (embedding_logits out) = network_out
      ∧ dom (action_logits out) ⊆ action_space_keys π
      ∧ dom (default ∅ (embedding_logits out)) ## action_space_keys π
      ∧ (embedding_logits out = None ↔ dom network_out ⊆ action_space_keys π)
      ∧ prob_dist out = logits_dict_to_distribution (action_logits out) temperature
      ∧ actor_id out = aid.
Proof.
  unfold compute_substep_policy_output, call_network.
  destruct (network_for π aid) as [net|] eqn:Hnet; simpl; [|done].
  destruct (σ !! net) as [s|] eqn:Hs; simpl; [|done].
  remember (module_call s (convert_to_torch obs (_device π))) as network_out
    eqn:Hout.
  destruct (any_key_outside π network_out) eqn:Hany; intros [= <-]; simpl;
    exists net, s; (split; [done|]); (split; [done|]); rewrite <- Hout.
  - split; [|split; [|split; [|split; [|by split]]]].
    + apply map_eq. intros key.
      rewrite lookup_union, filter_in_lookup, filter_not_in_lookup.
      case_decide; by destruct (network_out !! key).
    + rewrite dom_filter_in. intros key Hkey.
      by apply elem_of_intersection in Hkey as [_ Hkey].
    + rewrite dom_filter_not_in. intros key Hkey Hin.
      by apply elem_of_difference in Hkey as [_ Hkey].
    + split; [done|]. intros Hsub.
      apply any_key_outside_false in Hsub. congruence.
  - apply any_key_outside_false in Hany.
    split; [|split; [|split; [|split; [|by split]]]].
    + apply map_eq. intros key. rewrite lookup_union, lookup_empty.
      by destruct (network_out !! key).
    + done.
    + rewrite dom_empty_L. intros key Hkey.
      by apply not_elem_of_empty in Hkey.
    + done.
Qed.

(** X6.  [compute_logits_dict] agrees with [compute_substep_policy_output]:
    without the embedding it returns the action logits of the sub-step
    output, and with [return_embedding=True] it returns the action and
    embedding logits of the sub-step output when that has an embedding and
    fails its assertion when it has none; both raise the same lookup
    errors. *)
Theorem compute_logits_dict_substep π σ obs aid temperature :
  compute_logits_dict π σ obs aid false
  = (out ← compute_substep_policy_output π σ obs aid temperature;
     Ok (action_logits out, None))
  ∧ compute_logits_dict π σ obs aid true
    = (out ← compute_substep_policy_output π σ obs aid temperature;
       match embedding_logits out with
       | Some emb => Ok (action_logits out, Some emb)
       | None => Raise (AssertionError msg_no_embedding)
       end).
Proof.
  unfold compute_logits_dict, compute_substep_policy_output.
  destruct (network_for π aid) as [net|]; simpl; [|done].
  destruct (call_network σ net _) as [network_out|]; simpl; [|done].
  destruct (any_key_outside π network_out) eqn:Hany; simpl.
  - split; [done|].
    rewrite decide_True; [done|].
    by apply filter_not_in_nonempty, any_key_outside_true.
  - split; [done|].
    rewrite decide_False; [done|].
    rewrite filter_not_in_nonempty, <- any_key_outside_true. congruence.
Qed.

(** X7.  Log probabilities compose with the policy output: when
    [compute_policy_output] returns for a record and as many actions as the
    record has entries are given, [compute_action_log_probs] does not raise,
    and its i-th result is the log probability of the i-th action under the
    distribution of the sub-step output of the i-th entry. *)
Theorem compute_action_log_probs_of_policy_output
    π σ record temperature po (actions : list Action) :
  compute_policy_output π σ record temperature = Ok po →
  length actions = length (substep_records record) →
  ∃ res,
    compute_action_log_probs po actions = Ok res
    ∧ length res = length (substep_records record)
    ∧ ∀ (i : nat) e ac,
        substep_records record !! i = Some e →
        actions !! i = Some ac →
        ∃ out,
          compute_substep_policy_output π σ (observation e)
            (record_actor_id e) temperature = Ok out
          ∧ res !! i = Some (log_prob (prob_dist out) ac).
Proof.
  intros Hpo Hlen.
  assert (Hall : Forall (λ e, resolves π σ (record_actor_id e))
                   (substep_records record)).
  { apply compute_policy_output_returns_iff with temperature. by exists po. }
  destruct (compute_policy_output_loop π σ temperature _ PolicyOutput_new Hall)
    as (outs & Houts & Hloop).
  unfold compute_policy_output in Hpo. rewrite Hloop in Hpo.
  injection Hpo as <-. simpl.
  pose proof (Forall2_length _ _ _ Houts) as Hlen'.
  unfold compute_action_log_probs, prob_dist_list. simpl.
  rewrite length_fmap, decide_True by lia.
  eexists. split; [reflexivity|]. split.
  - rewrite length_fmap, length_zip, length_fmap. lia.
  - intros i e ac He Hac.
    destruct (Forall2_lookup_l _ _ _ _ _ Houts He) as (out & Hi & Hout).
    exists out. split; [done|].
    rewrite list_lookup_fmap.
    rewrite (proj2 (lookup_zip_with_Some pair _ _ i (prob_dist out, ac))).
    { done. }
    exists (prob_dist out), ac. split; [done|]. split; [|done].
    by rewrite list_lookup_fmap, Hi.
Qed.

End pipeline.

Lemma compute_policy_output_first_error_witness :
  compute_policy_output fixtures.toy_policy fixtures.toy_store
    fixtures.failing_record 1 = Raise (KeyError (ByStep (StepInt 5))).
Proof.
  apply (compute_policy_output_first_error fixtures.toy_policy
           fixtures.toy_store 1 fixtures.failing_record 1%nat
           (@Build_SpacesRecord fixtures.toy_torch 2
              (Some (mkActorID (StepInt 5) 0)))).
  - reflexivity.
  - constructor; [|constructor].
    exists 1%positive, fixtures.shared_net. split; reflexivity.
  - reflexivity.
Defined.

Lemma compute_substep_policy_output_split_witness :
  ∃ out,
    compute_substep_policy_output fixtures.toy_policy fixtures.toy_store 4
      (Some fixtures.a10) 1 = Ok out
    ∧ dom (action_logits out) ⊆ action_space_keys fixtures.toy_policy
    ∧ dom (default ∅ (embedding_logits out))
      ## action_space_keys fixtures.toy_policy.
Proof.
  destruct (compute_substep_policy_output_returns fixtures.toy_policy
              fixtures.toy_store 4 (Some fixtures.a10) 1) as [out Hout].
  { exists 2%positive, fixtures.agent0_net. split; reflexivity. }
  exists out. split; [exact Hout|].
  destruct (compute_substep_policy_output_split _ _ _ _ _ _ Hout)
    as (net & s & _ & _ & _ & Hin & Hdisj & _).
  exact (conj Hin Hdisj).
Defined.

Lemma compute_action_log_probs_of_policy_output_witness :
  ∃ po res,
    compute_policy_output fixtures.toy_policy fixtures.toy_store
      fixtures.toy_record 1 = Ok po
    ∧ compute_action_log_probs po [1; 2; 3] = Ok res
    ∧ length res = 3%nat.
Proof.
  destruct (proj2 (compute_policy_output_returns_iff fixtures.toy_policy
                     fixtures.toy_store fixtures.toy_record 1)) as [po Hpo].
  { constructor; [|constructor; [|constructor; [|constructor]]].
    - exists 1%positive, fixtures.shared_net. split; reflexivity.
    - exists 2%positive, fixtures.agent0_net. split; reflexivity.
    - exists 3%positive, fixtures.agent1_net. split; reflexivity. }
  destruct (compute_action_log_probs_of_policy_output (T := fixtures.toy_torch)
              _ _ _ _ po ([1; 2; 3] : list Z) Hpo eq_refl)
    as (res & Hres & Hlen & _).
  exists po, res. split; [exact Hpo|]. exact (conj Hres Hlen).
Defined.

(** ** The rollout and learner entry points *)

Section rollout.
Context {T : Torch} {S : Sampling T}.
Implicit Types (π : TorchPolicy) (σ : gmap ModuleRef ModuleState).

(** X8.  The rollout methods use the distribution of the sub-step output at
    temperature 1.0: [compute_action_with_logits] returns the action drawn
    from that distribution, converted to numpy, with the action logits of
    the sub-step output; [compute_action] returns that action alone;
    [compute_action_distribution] returns that distribution.  Each raises
    what the sub-step call raises. *)
Theorem rollout_uses_substep_output {MS E : Type} π σ obs
    (maze_state : option MS) (env : option E) aid deterministic rng :
  compute_action_with_logits π σ obs aid deterministic rng
  = (out ← compute_substep_policy_output π σ obs aid temperature_one;
     Ok ((convert_to_numpy (draw (prob_dist out) deterministic rng).1,
          action_logits out),
         (draw (prob_dist out) deterministic rng).2))
  ∧ compute_action π σ obs maze_state env aid deterministic rng
    = (out ← compute_substep_policy_output π σ obs aid temperature_one;
       Ok (convert_to_numpy (draw (prob_dist out) deterministic rng).1,
           (draw (prob_dist out) deterministic rng).2))
  ∧ compute_action_distribution π σ obs aid
    = (out ← compute_substep_policy_output π σ obs aid temperature_one;
       Ok (prob_dist out)).
Proof.
  unfold compute_action, compute_action_with_logits,
    compute_action_distribution.
  rewrite (compute_logits_dict_false π σ obs aid temperature_one).
  destruct (compute_substep_policy_output π σ obs aid temperature_one)
    as [out|err] eqn:Hout; simpl; [|done].
  unfold TorchPolicy_logits_dict_to_distribution. simpl.
  rewrite <- (compute_substep_policy_output_prob_dist _ _ _ _ _ _ Hout).
  by destruct (draw (prob_dist out) deterministic rng).
Qed.

(** X9.  [compute_action_logits_entropy_dist] converts the observation and
    hands the converted observation to [compute_logits_dict], which converts
    it again: its results are those of the sub-step output computed on the
    converted observation.  When converting a converted observation changes
    nothing, they are those of the sub-step output on the observation
    itself: its action logits, its distribution, the entropy of that
    distribution and an action drawn from it. *)
Theorem compute_action_logits_entropy_dist_substep
    π σ aid obs deterministic temperature rng :
  let learner_output (o : Observation) :=
    out ← compute_substep_policy_output π σ o aid temperature;
    Ok ((draw (prob_dist out) deterministic rng).1, action_logits out,
        entropy out, prob_dist out,
        (draw (prob_dist out) deterministic rng).2) in
  compute_action_logits_entropy_dist π σ aid obs deterministic temperature rng
  = learner_output (convert_to_torch obs (_device π))
  ∧ (convert_to_torch (convert_to_torch obs (_device π)) (_device π)
     = convert_to_torch obs (_device π) →
     compute_action_logits_entropy_dist π σ aid obs deterministic temperature rng
     = learner_output obs).
Proof.
  intros learner_output.
  assert (Hconv : compute_action_logits_entropy_dist π σ aid obs deterministic
                    temperature rng
                  = learner_output (convert_to_torch obs (_device π))).
  { unfold compute_action_logits_entropy_dist, learner_output.
    rewrite (compute_logits_dict_false π σ _ aid temperature).
    destruct (compute_substep_policy_output π σ _ aid temperature)
      as [out|err] eqn:Hout; simpl; [|done].
    unfold TorchPolicy_logits_dict_to_distribution, entropy. simpl.
    rewrite <- (compute_substep_policy_output_prob_dist _ _ _ _ _ _ Hout).
    by destruct (draw (prob_dist out) deterministic rng). }
  split; [exact Hconv|].
  intros Hidem. rewrite Hconv. unfold learner_output.
  unfold compute_substep_policy_output. by rewrite Hidem.
Qed.

End rollout.

Lemma compute_action_logits_entropy_dist_substep_witness :
  compute_action_logits_entropy_dist (S := fixtures.toy_sampling)
    fixtures.toy_policy fixtures.toy_store (Some fixtures.a00) 4 false 1 10
  = Ok (18, {[ "move" := 8 ]}, 1, {[ "move" := 8 ]}, 11).
Proof.
  destruct (compute_action_logits_entropy_dist_substep
              (S := fixtures.toy_sampling) fixtures.toy_policy
              fixtures.toy_store (Some fixtures.a00) 4 false 1 10)
    as [_ Hidem].
  rewrite (Hidem eq_refl). vm_compute. reflexivity.
Defined.

(** ** More on the registry *)

Section registry_more.
Context {T : Torch}.
Implicit Types (π : TorchPolicy) (a : ActorID) (net : ModuleRef).

(** X10.  [network_for] only ever returns a registered network: whatever
    it returns is held by the registry under some key. *)
Theorem network_for_registered π aid net :
  network_for π aid = Ok net → ∃ key, networks π !! key = Some net.
Proof.
  destruct aid as [a|]; simpl.
  - unfold networks_getitem.
    destruct (networks π !! network_key π a) as [net'|] eqn:Hkey; [|done].
    intros [= <-]. by exists (network_key π a).
  - destruct (decide (size (networks π) = 1%nat)) as [Hsize|]; [|done].
    destruct (map_size_1_inv _ Hsize) as (key & net' & Hm & Hl).
    rewrite Hl. simpl. intros [= <-]. exists key.
    rewrite Hm. apply lookup_singleton_eq.
Qed.

(** X11.  For a policy built by the constructor, two actor ids of the same
    step key get the same network, or the same KeyError, unless that step
    key was listed in [substeps_with_separate_agent_nets]; with no list
    given, the agent id never matters. *)
Theorem network_for_shared networks action_space_keys device substeps a1 a2 :
  step_key a1 = step_key a2 →
  (∀ listed, substeps = Some listed → step_key a1 ∉ listed) →
  network_for (TorchPolicy_init networks action_space_keys device substeps)
    (Some a1)
  = network_for (TorchPolicy_init networks action_space_keys device substeps)
      (Some a2).
Proof.
  intros Hstep Hshared. simpl.
  assert (Hout : step_key a1 ∉ substeps_with_separate_agent_nets
                   (TorchPolicy_init networks action_space_keys device substeps)).
  { simpl. destruct substeps as [listed|].
    - rewrite elem_of_list_to_set. by apply Hshared.
    - apply not_elem_of_empty. }
  rewrite !network_key_shared; [by rewrite Hstep| |done].
  by rewrite <- Hstep.
Qed.

End registry_more.

Lemma network_for_registered_witness :
  ∃ key, networks fixtures.single_policy !! key = Some 1%positive.
Proof.
  apply (network_for_registered fixtures.single_policy None 1%positive).
  reflexivity.
Defined.

Lemma network_for_shared_witness :
  network_for fixtures.toy_policy (Some fixtures.a00)
  = network_for fixtures.toy_policy (Some fixtures.a01).
Proof.
  apply (network_for_shared (T := fixtures.toy_torch)).
  - reflexivity.
  - intros listed [= <-]. rewrite list_elem_of_singleton. discriminate.
Defined.

(** ** The lifecycle methods *)

Section lifecycle.
Context {T : Torch} {L : Lifecycle T}.
Implicit Types (π : TorchPolicy) (σ : gmap ModuleRef ModuleState).
Implicit Types (net : ModuleRef) (f : ModuleState → ModuleState).

Lemma elem_of_values π net :
  net ∈ (map_to_list (networks π)).*2 ↔ ∃ key, networks π !! key = Some net.
Proof.
  rewrite list_elem_of_fmap. split.
  - intros ([key net'] & -> & Hin). exists key. by apply elem_of_map_to_list.
  - intros [key Hkey]. exists (key, net). split; [done|].
    by apply elem_of_map_to_list.
Qed.

Lemma registrations_unregistered π net :
  (∀ key, networks π !! key ≠ Some net) → registrations π net = 0%nat.
Proof.
  intros Hnone. unfold registrations.
  destruct (filter _ _) as [|net' l] eqn:Hfilter; [done|].
  assert (Hin : net' ∈ filter (λ policy, policy = net)
                        (map_to_list (networks π)).*2)
    by (rewrite Hfilter; apply list_elem_of_here).
  apply list_elem_of_filter in Hin as [-> Hin].
  apply elem_of_values in Hin as [key Hkey]. by destruct (Hnone key).
Qed.

Lemma registrations_registered π key net :
  networks π !! key = Some net → (0 < registrations π net)%nat.
Proof.
  intros Hkey. unfold registrations.
  assert (Hin : net ∈ filter (λ policy, policy = net)
                        (map_to_list (networks π)).*2).
  { apply list_elem_of_filter. split; [done|].
    apply elem_of_values. by exists key. }
  destruct (filter _ _); [by apply not_elem_of_nil in Hin|simpl; lia].
Qed.

(** Running a method over a list of module objects applies it to each
    module once per occurrence in the list. *)
Lemma for_each_module_loop f (l : list ModuleRef) σ :
  (∀ net, net ∈ l → is_Some (σ !! net)) →
  ∃ σ',
    for_each
      (λ (σ : gmap ModuleRef ModuleState) (policy : ModuleRef),
         match σ !! policy with
         | Some s => Ok (<[policy := f s]> σ)
         | None => Raise (UnboundModule policy)
         end)
      σ l = Ok σ'
    ∧ ∀ net, σ' !! net
             = Nat.iter (length (filter (λ policy, policy = net) l)) f
               <$> σ !! net.
Proof.
  revert σ. induction l as [|x l IH]; intros σ Hbound.
  - exists σ. split; [done|]. intros net. simpl. by destruct (σ !! net).
  - destruct (Hbound x) as [s Hs]; [apply list_elem_of_here|].
    destruct (IH (<[x := f s]> σ)) as (σ' & Hloop & Hσ').
    { intros net Hin. destruct (decide (x = net)) as [->|Hne].
      - rewrite lookup_insert_eq. by eexists.
      - rewrite lookup_insert_ne by done. apply Hbound.
        by apply list_elem_of_further. }
    exists σ'. split; [simpl; by rewrite Hs|].
    intros net. rewrite Hσ', filter_cons.
    destruct (decide (x = net)) as [->|Hne].
    + rewrite lookup_insert_eq, Hs. simpl. f_equal.
      symmetry. apply Nat.iter_succ_r.
    + by rewrite lookup_insert_ne.
Qed.

Lemma for_each_network_spec f π σ :
  bound π σ →
  ∃ σ',
    for_each_network f π σ = Ok σ'
    ∧ (∀ net, σ' !! net = Nat.iter (registrations π net) f <$> σ !! net)
    ∧ (∀ net, (∀ key, networks π !! key ≠ Some net) → σ' !! net = σ !! net)
    ∧ ((∀ s, f (f s) = f s) →
       ∀ key net s, networks π !! key = Some net → σ !! net = Some s →
                    σ' !! net = Some (f s)).
Proof.
  intros Hbound.
  destruct (for_each_module_loop f (map_to_list (networks π)).*2 σ)
    as (σ' & Hloop & Hσ').
  { intros net Hin. apply elem_of_values in Hin as [key Hkey].
    by apply (Hbound key). }
  exists σ'. split; [exact Hloop|]. split; [exact Hσ'|]. split.
  - intros net Hnone. rewrite Hσ'.
    fold (registrations π net).
    rewrite (registrations_unregistered π net Hnone). simpl.
    by destruct (σ !! net).
  - intros Hidem key net s Hkey Hs. rewrite Hσ', Hs. simpl. f_equal.
    pose proof (registrations_registered π key net Hkey) as Hpos.
    fold (registrations π net).
    destruct (registrations π net) as [|n]; [lia|].
    clear Hpos. induction n as [|n IHn]; [done|].
    rewrite Nat.iter_succ. by rewrite IHn, Hidem.
Qed.

(** X12.  On a policy whose registered modules all exist, [eval] and
    [train] do not raise; each applies the module's own [eval] (or
    [train]) to a module once per registry key that holds it, so a module
    shared by two keys gets it twice, and leaves every module that is not
    registered untouched.  When the module's method is idempotent, every
    registered module ends in the state the method gives it. *)
Theorem eval_train_spec π σ :
  bound π σ →
  ∃ σe σt,
    eval π σ = Ok σe ∧ train π σ = Ok σt
    ∧ (∀ net, σe !! net
              = Nat.iter (registrations π net) module_eval <$> σ !! net)
    ∧ (∀ net, σt !! net
              = Nat.iter (registrations π net) module_train <$> σ !! net)
    ∧ (∀ net, (∀ key, networks π !! key ≠ Some net) →
              σe !! net = σ !! net ∧ σt !! net = σ !! net)
    ∧ ((∀ s, module_eval (module_eval s) = module_eval s) →
       ∀ key net s, networks π !! key = Some net → σ !! net = Some s →
                    σe !! net = Some (module_eval s))
    ∧ ((∀ s, module_train (module_train s) = module_train s) →
       ∀ key net s, networks π !! key = Some net → σ !! net = Some s →
                    σt !! net = Some (module_train s)).
Proof.
  intros Hbound.
  destruct (for_each_network_spec module_eval π σ Hbound)
    as (σe & He & Hiter_e & Hframe_e & Hidem_e).
  destruct (for_each_network_spec module_train π σ Hbound)
    as (σt & Ht & Hiter_t & Hframe_t & Hidem_t).
  exists σe, σt. split; [exact He|]. split; [exact Ht|].
  split; [exact Hiter_e|]. split; [exact Hiter_t|].
  split; [|split; [exact Hidem_e | exact Hidem_t]].
  intros net Hnone. split; [by apply Hframe_e | by apply Hframe_t].
Qed.

(** X13.  [to(device)] records the device and moves every registered
    module, once per key that holds it, leaving other modules untouched;
    the registry, the action space keys and the separate-agent-nets set
    are unchanged, so every actor id resolves to the same network as
    before. *)
Theorem to_spec π σ device :
  bound π σ →
  ∃ σ',
    (to π σ device).2 = Ok σ'
    ∧ _device (to π σ device).1 = device
    ∧ networks (to π σ device).1 = networks π
    ∧ action_space_keys (to π σ device).1 = action_space_keys π
    ∧ (∀ aid, network_for (to π σ device).1 aid = network_for π aid)
    ∧ (∀ net, σ' !! net
              = Nat.iter (registrations π net) (λ s, module_to s device)
                <$> σ !! net)
    ∧ (∀ net, (∀ key, networks π !! key ≠ Some net) → σ' !! net = σ !! net).
Proof.
  intros Hbound.
  destruct (for_each_network_spec (λ s, module_to s device) π σ Hbound)
    as (σ' & Hto & Hiter & Hframe & _).
  exists σ'. split; [exact Hto|]. split; [done|]. split; [done|].
  split; [done|]. split; [|split; [exact Hiter | exact Hframe]].
  by intros [a|].
Qed.

(** The loop of [parameters] over a list of module objects. *)
Lemma parameters_loop (l : list ModuleRef) σ (acc : list Tensor) :
  (∀ net, net ∈ l → is_Some (σ !! net)) →
  ∃ params,
    for_each
      (λ (params : list Tensor) (policy : ModuleRef),
         match σ !! policy with
         | Some s => Ok (params ++ module_parameters s)%list
         | None => Raise (UnboundModule policy)
         end)
      acc l = Ok params
    ∧ ∀ x, x ∈ params
           ↔ x ∈ acc
             ∨ ∃ net s, net ∈ l ∧ σ !! net = Some s ∧ x ∈ module_parameters s.
Proof.
  revert acc. induction l as [|net0 l IH]; intros acc Hbound.
  - exists acc. split; [done|]. intros x. split; [by left|].
    intros [Hx|(net & s & Hin & _)]; [done|by apply not_elem_of_nil in Hin].
  - destruct (Hbound net0) as [s0 Hs0]; [apply list_elem_of_here|].
    destruct (IH (acc ++ module_parameters s0)%list) as (params & Hloop & Hin).
    { intros net Hnet. apply Hbound. by apply list_elem_of_further. }
    exists params. split; [simpl; by rewrite Hs0|].
    intros x. rewrite Hin, elem_of_app. split.
    + intros [[Hx|Hx]|(net & s & Hnet & Hs & Hx)].
      * by left.
      * right. exists net0, s0. split; [apply list_elem_of_here|done].
      * right. exists net, s. split; [by apply list_elem_of_further|done].
    + intros [Hx|(net & s & Hnet & Hs & Hx)]; [by left; left|].
      apply elem_of_cons in Hnet as [->|Hnet].
      * left. right. congruence.
      * right. by exists net, s.
Qed.

(** X14.  On a policy whose registered modules all exist, [parameters]
    returns a list that holds exactly the parameters of the registered
    networks: a tensor is in it if and only if it is a parameter of a
    module registered under some key. *)
Theorem parameters_spec π σ :
  bound π σ →
  ∃ params,
    parameters π σ = Ok params
    ∧ ∀ x, x ∈ params
           ↔ ∃ key net s, networks π !! key = Some net ∧ σ !! net = Some s
                          ∧ x ∈ module_parameters s.
Proof.
  intros Hbound.
  destruct (parameters_loop (map_to_list (networks π)).*2 σ [])
    as (params & Hloop & Hin).
  { intros net Hnet. apply elem_of_values in Hnet as [key Hkey].
    by apply (Hbound key). }
  exists params. split; [exact Hloop|].
  intros x. rewrite Hin. split.
  - intros [Hx|(net & s & Hnet & Hs & Hx)]; [by apply not_elem_of_nil in Hx|].
    apply elem_of_values in Hnet as [key Hkey]. by exists key, net, s.
  - intros (key & net & s & Hkey & Hs & Hx). right. exists net, s.
    split; [|done]. apply elem_of_values. by exists key.
Qed.

End lifecycle.

Lemma eval_train_spec_witness :
  ∃ σe,
    eval (L := fixtures.staged_lifecycle) fixtures.shared_policy
      fixtures.staged_store = Ok σe
    ∧ σe !! 1%positive = Some ({[ "move" := 2 ]}, false, "cpu")
    ∧ σe !! 3%positive = fixtures.staged_store !! 3%positive.
Proof.
  destruct (eval_train_spec (L := fixtures.staged_lifecycle)
              fixtures.shared_policy fixtures.staged_store)
    as (σe & σt & He & _ & _ & _ & Hframe & Hidem & _).
  { unfold bound. by_computation. }
  exists σe. split; [exact He|]. split.
  - exact (Hidem (λ s, eq_refl) (ByStep (StepInt 0)) 1%positive
             (({[ "move" := 2 ]}, true, "cpu") : fixtures.Staged)
             eq_refl eq_refl).
  - apply Hframe. intros key Hkey.
    apply (elem_of_map_to_list (networks fixtures.shared_policy)) in Hkey.
    vm_compute in Hkey.
    repeat (apply elem_of_cons in Hkey as [Hkey|Hkey]; [discriminate|]).
    by apply not_elem_of_nil in Hkey.
Defined.

Lemma to_spec_witness :
  ∃ σ',
    (to (L := fixtures.staged_lifecycle) fixtures.shared_policy
       fixtures.staged_store "cuda").2 = Ok σ'
    ∧ _device (to (L := fixtures.staged_lifecycle) fixtures.shared_policy
                 fixtures.staged_store "cuda").1 = "cuda"
    ∧ σ' !! 2%positive
      = Some ({[ "move" := 3; "latent" := 5 ]}, true, "cuda").
Proof.
  destruct (to_spec (L := fixtures.staged_lifecycle) fixtures.shared_policy
              fixtures.staged_store "cuda")
    as (σ' & Hto & Hdev & _ & _ & _ & Hiter & _).
  { unfold bound. by_computation. }
  exists σ'. split; [exact Hto|]. split; [exact Hdev|].
  rewrite Hiter. vm_compute. reflexivity.
Defined.

Lemma parameters_spec_witness :
  ∃ params,
    parameters (L := fixtures.staged_lifecycle) fixtures.shared_policy
      fixtures.staged_store = Ok params
    ∧ 5 ∈ params.
Proof.
  destruct (parameters_spec (L := fixtures.staged_lifecycle)
              fixtures.shared_policy fixtures.staged_store)
    as (params & Hparams & Hin).
  { unfold bound. by_computation. }
  exists params. split; [exact Hparams|].
  apply Hin.
  exists (ByStep (StepInt 2)), 2%positive,
    ({[ "move" := 3; "latent" := 5 ]}, true, "cpu").
  split; [reflexivity|]. split; [reflexivity|].
  vm_compute. apply list_elem_of_further, list_elem_of_here.
Defined.

(** ** More on [load_state_dict] *)

Section loading.
Context {T : Torch}.
Implicit Types (π : TorchPolicy) (σ : gmap ModuleRef ModuleState).
Implicit Types (key : NetKey) (net : ModuleRef).
Implicit Types (sd : gmap string (gmap NetKey ModuleStateDict)).
Implicit Types (sdp : gmap NetKey ModuleStateDict).

Lemma network_load_state_dict_Ok σ net entry σ1 :
  network_load_state_dict σ net entry = Ok σ1 ↔
  ∃ s s', σ !! net = Some s ∧ module_load_state_dict s entry = Some s'
          ∧ σ1 = <[net := s']> σ.
Proof.
  unfold network_load_state_dict. split.
  - destruct (σ !! net) as [s|]; [|done].
    destruct (module_load_state_dict s entry) as [s'|] eqn:Hload; [|done].
    intros [= <-]. by exists s, s'.
  - intros (s & s' & -> & -> & ->). done.
Qed.

(** One iteration of the loop of [load_state_dict]. *)
Lemma load_step_Ok sdp σ key net σ1 :
  match sdp !! key with
  | Some entry => network_load_state_dict σ net entry
  | None => Raise (AssertionErrorAt msg_no_state_dict key)
  end = Ok σ1 ↔
  ∃ s entry s', σ !! net = Some s ∧ sdp !! key = Some entry
                ∧ module_load_state_dict s entry = Some s'
                ∧ σ1 = <[net := s']> σ.
Proof.
  split.
  - destruct (sdp !! key) as [entry|]; [|done].
    intros (s & s' & Hs & Hload & ->)%network_load_state_dict_Ok.
    by exists s, entry, s'.
  - intros (s & entry & s' & Hs & -> & Hload & ->).
    apply network_load_state_dict_Ok. by exists s, s'.
Qed.

(** The loop changes no module outside the list and allocates nothing. *)
Lemma load_loop_frame sdp (items : list (NetKey * ModuleRef)) σ σ' :
  for_each
    (λ (σ : gmap ModuleRef ModuleState) '(key, policy),
       match sdp !! key with
       | Some entry => network_load_state_dict σ policy entry
       | None => Raise (AssertionErrorAt msg_no_state_dict key)
       end)
    σ items = Ok σ' →
  dom σ' = dom σ ∧ ∀ net, net ∉ items.*2 → σ' !! net = σ !! net.
Proof.
  revert σ. induction items as [|[key0 net0] items IH]; intros σ.
  - by intros [= <-].
  - simpl.
    destruct (match sdp !! key0 with
              | Some entry => network_load_state_dict σ net0 entry
              | None => Raise (AssertionErrorAt msg_no_state_dict key0)
              end) as [σ1|] eqn:Hstep; simpl; [|done].
    apply load_step_Ok in Hstep as (s0 & entry & s0' & Hs0 & _ & _ & ->).
    intros [Hdom Hframe]%IH. split.
    + rewrite Hdom. apply dom_insert_lookup_L. by eexists.
    + intros net [Hne Hnet]%not_elem_of_cons.
      rewrite (Hframe net Hnet). by apply lookup_insert_ne.
Qed.

(** When no module occurs twice in the list, every module of the list is
    loaded with the entry of its key. *)
Lemma load_loop_distinct sdp (items : list (NetKey * ModuleRef)) σ σ' :
  NoDup items.*2 →
  for_each
    (λ (σ : gmap ModuleRef ModuleState) '(key, policy),
       match sdp !! key with
       | Some entry => network_load_state_dict σ policy entry
       | None => Raise (AssertionErrorAt msg_no_state_dict key)
       end)
    σ items = Ok σ' →
  ∀ key net, (key, net) ∈ items →
    ∃ s entry s', σ !! net = Some s ∧ sdp !! key = Some entry
                  ∧ module_load_state_dict s entry = Some s'
                  ∧ σ' !! net = Some s'.
Proof.
  revert σ. induction items as [|[key0 net0] items IH]; intros σ Hnodup.
  - intros _ key net Hin. by apply not_elem_of_nil in Hin.
  - simpl in *. apply NoDup_cons in Hnodup as [Hfresh Hnodup].
    destruct (match sdp !! key0 with
              | Some entry => network_load_state_dict σ net0 entry
              | None => Raise (AssertionErrorAt msg_no_state_dict key0)
              end) as [σ1|] eqn:Hstep; simpl; [|done].
    apply load_step_Ok in Hstep as (s0 & entry0 & s0' & Hs0 & Hentry0 & Hload0 & ->).
    intros Hloop key net [[= -> ->]|Hin]%elem_of_cons.
    + exists s0, entry0, s0'. split; [done|]. split; [done|]. split; [done|].
      destruct (load_loop_frame _ _ _ _ Hloop) as [_ Hframe].
      rewrite (Hframe net0 Hfresh). apply lookup_insert_eq.
    + destruct (IH _ Hnodup Hloop key net Hin)
        as (s & entry & s' & Hs & Hentry & Hload & Hs').
      exists s, entry, s'. split; [|done].
      rewrite lookup_insert_ne in Hs; [done|].
      intros ->. apply Hfresh. apply list_elem_of_fmap. by exists (key, net).
Qed.

(** When no module occurs twice in the list, the loop returns as soon as
    every item has an entry that its module accepts. *)
Lemma load_loop_returns sdp (items : list (NetKey * ModuleRef)) σ :
  NoDup items.*2 →
  (∀ key net, (key, net) ∈ items →
     ∃ s entry s', σ !! net = Some s ∧ sdp !! key = Some entry
                   ∧ module_load_state_dict s entry = Some s') →
  ∃ σ',
    for_each
      (λ (σ : gmap ModuleRef ModuleState) '(key, policy),
         match sdp !! key with
         | Some entry => network_load_state_dict σ policy entry
         | None => Raise (AssertionErrorAt msg_no_state_dict key)
         end)
      σ items = Ok σ'.
Proof.
  revert σ. induction items as [|[key0 net0] items IH]; intros σ Hnodup Hall.
  - by exists σ.
  - simpl in *. apply NoDup_cons in Hnodup as [Hfresh Hnodup].
    destruct (Hall key0 net0) as (s0 & entry0 & s0' & Hs0 & Hentry0 & Hload0);
      [apply list_elem_of_here|].
    rewrite (proj2 (load_step_Ok sdp σ key0 net0 (<[net0 := s0']> σ))).
    2:{ by exists s0, entry0, s0'. }
    simpl. apply IH; [done|].
    intros key net Hin.
    destruct (Hall key net) as (s & entry & s' & Hs & Hentry & Hload);
      [by apply list_elem_of_further|].
    exists s, entry, s'. split; [|done].
    rewrite lookup_insert_ne; [done|].
    intros ->. apply Hfresh. apply list_elem_of_fmap. by exists (key, net).
Qed.

Lemma values_distinct π :
  (∀ key1 key2 net, networks π !! key1 = Some net →
                    networks π !! key2 = Some net → key1 = key2) →
  NoDup (map_to_list (networks π)).*2.
Proof.
  intros Hinj. apply NoDup_fmap_2_strong; [|apply NoDup_map_to_list].
  intros [key1 net1] [key2 net2] Hin1%elem_of_map_to_list
    Hin2%elem_of_map_to_list Heq.
  simpl in Heq. subst net2. f_equal. by eapply Hinj.
Qed.

(** X15.  [load_state_dict] changes registered modules only: when it
    returns, the store holds the same module objects as before, and every
    module that no registry key holds is in the state it had. *)
Theorem load_state_dict_frame π sd σ σ' :
  load_state_dict π sd σ = Ok σ' →
  dom σ' = dom σ
  ∧ ∀ net, (∀ key, networks π !! key ≠ Some net) → σ' !! net = σ !! net.
Proof.
  unfold load_state_dict.
  destruct (sd !! "policies") as [sdp|]; [|by intros [= <-]].
  intros [Hdom Hframe]%load_loop_frame. split; [done|].
  intros net Hnone. apply Hframe.
  intros ([key net'] & -> & Hin%elem_of_map_to_list)%list_elem_of_fmap.
  by destruct (Hnone key).
Qed.

(** X16.  For a registry in which no module is shared by two keys and a
    state dict with the key "policies": [load_state_dict] returns exactly
    when every registered key has an entry that its module accepts, and
    then every registered module is in the state its own [load_state_dict]
    gives it for that entry. *)
Theorem load_state_dict_distinct π sd sdp σ :
  (∀ key1 key2 net, networks π !! key1 = Some net →
                    networks π !! key2 = Some net → key1 = key2) →
  sd !! "policies" = Some sdp →
  ((∃ σ', load_state_dict π sd σ = Ok σ')
   ↔ ∀ key net, networks π !! key = Some net →
       ∃ s entry s', σ !! net = Some s ∧ sdp !! key = Some entry
                     ∧ module_load_state_dict s entry = Some s')
  ∧ ∀ σ', load_state_dict π sd σ = Ok σ' →
      ∀ key net, networks π !! key = Some net →
        ∃ s entry s', σ !! net = Some s ∧ sdp !! key = Some entry
                      ∧ module_load_state_dict s entry = Some s'
                      ∧ σ' !! net = Some s'.
Proof.
  intros Hinj Hsd. pose proof (values_distinct π Hinj) as Hnodup.
  unfold load_state_dict. rewrite Hsd.
  assert (Hresult : ∀ σ',
    for_each
      (λ (σ : gmap ModuleRef ModuleState) '(key, policy),
         match sdp !! key with
         | Some entry => network_load_state_dict σ policy entry
         | None => Raise (AssertionErrorAt msg_no_state_dict key)
         end)
      σ (map_to_list (networks π)) = Ok σ' →
    ∀ key net, networks π !! key = Some net →
      ∃ s entry s', σ !! net = Some s ∧ sdp !! key = Some entry
                    ∧ module_load_state_dict s entry = Some s'
                    ∧ σ' !! net = Some s').
  { intros σ' Hloop key net Hkey.
    apply (load_loop_distinct sdp _ σ σ' Hnodup Hloop).
    by apply elem_of_map_to_list. }
  split; [|exact Hresult]. split.
  - intros [σ' Hloop] key net Hkey.
    destruct (Hresult σ' Hloop key net Hkey)
      as (s & entry & s' & Hs & Hentry & Hload & _).
    by exists s, entry, s'.
  - intros Hall. apply load_loop_returns; [done|].
    intros key net Hin. apply Hall. by apply elem_of_map_to_list.
Qed.

End loading.

Lemma single_policy_key key net :
  networks fixtures.single_policy !! key = Some net →
  key = ByStep (StepInt 0) ∧ net = 1%positive.
Proof.
  intros Hkey. change (networks fixtures.single_policy)
    with ({[ ByStep (StepInt 0) := 1%positive ]} : gmap NetKey ModuleRef) in Hkey.
  apply lookup_singleton_Some in Hkey as [<- <-]. done.
Qed.

Lemma load_state_dict_frame_witness :
  ∃ σ',
    load_state_dict fixtures.single_policy fixtures.retrained_state_dict
      fixtures.toy_store = Ok σ'
    ∧ dom σ' = dom fixtures.toy_store
    ∧ σ' !! 2%positive = Some fixtures.agent0_net.
Proof.
  exists (<[1%positive := fixtures.retrained_net]> fixtures.toy_store).
  assert (Hload : load_state_dict fixtures.single_policy
                    fixtures.retrained_state_dict fixtures.toy_store
                  = Ok (<[1%positive := fixtures.retrained_net]> fixtures.toy_store))
    by (vm_compute; reflexivity).
  destruct (load_state_dict_frame _ _ _ _ Hload) as [Hdom Hframe].
  split; [exact Hload|]. split; [exact Hdom|].
  rewrite Hframe; [reflexivity|].
  intros key Hkey. apply single_policy_key in Hkey as [_ Hnet]. discriminate.
Defined.

Lemma load_state_dict_distinct_witness :
  ∃ σ',
    load_state_dict fixtures.single_policy fixtures.retrained_state_dict
      fixtures.toy_store = Ok σ'
    ∧ σ' !! 1%positive = Some fixtures.retrained_net.
Proof.
  destruct (load_state_dict_distinct fixtures.single_policy
              fixtures.retrained_state_dict
              {[ ByStep (StepInt 0) := fixtures.retrained_net ]}
              fixtures.toy_store) as [Hiff Hresult].
  { intros key1 key2 net [-> _]%single_policy_key [-> _]%single_policy_key.
    reflexivity. }
  { reflexivity. }
  destruct (proj2 Hiff) as [σ' Hload].
  { intros key net [-> ->]%single_policy_key.
    exists fixtures.shared_net, fixtures.retrained_net, fixtures.retrained_net.
    split; [reflexivity|]. split; [reflexivity|]. vm_compute. reflexivity. }
  exists σ'. split; [exact Hload|].
  destruct (Hresult σ' Hload (ByStep (StepInt 0)) 1%positive eq_refl)
    as (s & entry & s' & Hs & Hentry & Hmod & Hs').
  etrans; [exact Hs'|].
  injection Hs as <-. injection Hentry as <-.
  etrans; [symmetry; exact Hmod|]. vm_compute. reflexivity.
Defined.

(** ** More on the dummy structured core environment *)

Section dummy_env_more.
Import dummy_structured_core_env.
Context {C : Collaborators}.
Implicit Types (self : DummyStructuredCoreEnvironment) (maze_action : MazeAction).

Lemma step_draws_once self maze_action :
  (step self maze_action).1.1.1.1 = (sample (observation_space self)).1
  ∧ observation_space (step self maze_action).2 = advance (observation_space self)
  ∧ (step self maze_action).1.1.2 = false.
Proof.
  unfold step, get_maze_state, advance.
  destruct (decide (current_agent self = 0)); simpl;
    destruct (sample (observation_space self)); simpl; [done|].
  by destruct (summarize_reward (reward_aggregator self)).
Qed.

(** One full cycle: a step of the first agent, then a step of the second. *)
Lemma step_twice self first second :
  current_agent self = 0 →
  let self1 := (step self first).2 in
  let self2 := (step self1 second).2 in
  (step self first).1.1.1.2 = zero
  ∧ (step self1 second).1.1.1.2 = (summarize_reward (reward_aggregator self)).1
  ∧ current_agent self2 = 0
  ∧ context self2 = increment_env_step (context self)
  ∧ observation_space self2 = advance (advance (observation_space self)).
Proof.
  intros Hzero self1 self2.
  pose proof (step_first_agent self first Hzero) as Hfirst.
  pose proof (step_draws_once self first) as (_ & Hspace1 & _).
  fold self1 in Hspace1.
  destruct (step self first) as [[[[obs1 reward1] done1] info1] self1'] eqn:H1.
  simpl in Hfirst. destruct Hfirst as (-> & _ & _ & Hagent1 & Hctx1 & Hagg1).
  assert (Hother : current_agent self1 ≠ 0) by (unfold self1; simpl; lia).
  pose proof (step_other_agent self1 second Hother) as Hsecond.
  pose proof (step_draws_once self1 second) as (_ & Hspace2 & _).
  fold self2 in Hspace2.
  destruct (step self1 second) as [[[[obs2 reward2] done2] info2] self2'] eqn:H2.
  simpl in Hsecond. destruct Hsecond as (-> & _ & _ & Hagent2 & Hctx2).
  unfold self2, self1 in *. simpl in *.
  rewrite Hagg1, Hctx2, Hctx1, Hspace2, Hspace1. done.
Qed.

Lemma steps_cons self maze_action rest :
  steps self (maze_action :: rest)
  = ((step self maze_action).1 :: (steps (step self maze_action).2 rest).1,
     (steps (step self maze_action).2 rest).2).
Proof.
  simpl. destruct (step self maze_action) as [out self']. simpl.
  by destruct (steps self' rest).
Qed.

(** X17.  A run of 2n steps that starts at agent 0 is n full environment
    steps: it ends at agent 0 again, the env step of the context has been
    incremented exactly n times, one observation was drawn per step, and
    every step at an even position returned the reward 0. *)
Theorem steps_full_cycles (n : nat) self maze_actions :
  current_agent self = 0 →
  length maze_actions = (2 * n)%nat →
  current_agent (steps self maze_actions).2 = 0
  ∧ context (steps self maze_actions).2
    = Nat.iter n increment_env_step (context self)
  ∧ observation_space (steps self maze_actions).2
    = Nat.iter (2 * n) advance (observation_space self)
  ∧ length (steps self maze_actions).1 = (2 * n)%nat
  ∧ ∀ (i : nat) out,
      (steps self maze_actions).1 !! (2 * i)%nat = Some out → out.1.1.2 = zero.
Proof.
  revert self maze_actions. induction n as [|n IH]; intros self actions Hzero Hlen.
  - destruct actions; [|done]. simpl. split; [done|]. split; [done|].
    split; [done|]. split; [done|]. intros i out Hi. by destruct i.
  - destruct actions as [|first [|second rest]]; [done|simpl in Hlen; lia|].
    destruct (step_twice self first second Hzero)
      as (Hr1 & _ & Hagent & Hctx & Hspace).
    destruct (IH (step (step self first).2 second).2 rest Hagent)
      as (IHagent & IHctx & IHspace & IHlen & IHreward).
    { simpl in Hlen. lia. }
    rewrite !steps_cons. simpl.
    split; [exact IHagent|]. split; [|split; [|split]].
    + rewrite IHctx, Hctx. symmetry. apply Nat.iter_succ_r.
    + rewrite IHspace, Hspace.
      replace (n + S (n + 0))%nat with (S (2 * n))%nat by lia.
      rewrite <- !Nat.iter_succ_r. simpl. done.
    + rewrite IHlen. lia.
    + intros i out Hi. destruct i as [|i].
      * simpl in Hi. injection Hi as <-. exact Hr1.
      * apply (IHreward i). rewrite <- Hi.
        transitivity
          (((step self first).1
            :: (step (step self first).2 second).1
            :: (steps (step (step self first).2 second).2 rest).1)
           !! S (S (2 * i))); [reflexivity|].
        f_equal. lia.
Qed.

(** X18.  [reset] draws one observation and sets the agent to 0, and
    leaves the context and the reward aggregator as they are: the env step
    is not reset.  The step that follows a reset is a step of the first
    agent: it returns the reward 0 and does not increment the env step. *)
Theorem reset_then_step self maze_action :
  let self' := (reset self).2 in
  (reset self).1 = (sample (observation_space self)).1
  ∧ observation_space self' = advance (observation_space self)
  ∧ current_agent self' = 0
  ∧ context self' = context self
  ∧ reward_aggregator self' = reward_aggregator self
  ∧ (step self' maze_action).1.1.1.2 = zero
  ∧ context (step self' maze_action).2 = context self
  ∧ current_agent (step self' maze_action).2 = 1.
Proof.
  intros self'.
  assert (Hreset : (reset self).1 = (sample (observation_space self)).1
                   ∧ observation_space self' = advance (observation_space self)
                   ∧ current_agent self' = 0
                   ∧ context self' = context self
                   ∧ reward_aggregator self' = reward_aggregator self).
  { unfold self', reset, get_maze_state, advance. simpl.
    by destruct (sample (observation_space self)). }
  destruct Hreset as (Hobs & Hspace & Hagent & Hctx & Hagg).
  pose proof (step_first_agent self' maze_action Hagent) as Hstep.
  destruct (step self' maze_action) as [[[[obs reward] done] info] self''].
  simpl in *. destruct Hstep as (-> & _ & _ & Hagent' & Hctx' & _).
  rewrite Hctx'. done.
Qed.

(** X19.  In every reachable environment the actor id is one that
    [agent_counts_dict] declares: its step key is a key of the dictionary
    and its agent index is below the agent count of that step key. *)
Theorem actor_id_in_agent_counts self :
  reachable self →
  ∃ count,
    agent_counts_dict self !! (actor_id self).1 = Some count
    ∧ 0 ≤ (actor_id self).2 < count.
Proof.
  intros Hreach. exists 2. split; [reflexivity|].
  destruct (reachable_current_agent self Hreach) as [Hagent|Hagent];
    simpl; lia.
Qed.

End dummy_env_more.

(** ** Indices of distributed environments *)

Section indices.
Import distributed_env.


End indices.

Lemma steps_full_cycles_witness :
  let self :=
    dummy_structured_core_env.init (C := fixtures.toy_collaborators) 10 0 7 in
  dummy_structured_core_env.current_agent
    (dummy_structured_core_env.steps self [tt; tt; tt; tt]).2 = 0
  ∧ dummy_structured_core_env.context
      (dummy_structured_core_env.steps self [tt; tt; tt; tt]).2 = 2
  ∧ dummy_structured_core_env.observation_space
      (dummy_structured_core_env.steps self [tt; tt; tt; tt]).2 = 14.
Proof.
  intros self.
  destruct (steps_full_cycles (C := fixtures.toy_collaborators) 2 self
              [tt; tt; tt; tt] eq_refl eq_refl)
    as (Hagent & Hctx & Hspace & _).
  split; [exact Hagent|]. split; [exact Hctx | exact Hspace].
Defined.

Lemma actor_id_in_agent_counts_witness :
  let self :=
    (dummy_structured_core_env.step
       (dummy_structured_core_env.init (C := fixtures.toy_collaborators) 10 0 7)
       tt).2 in
  ∃ count,
    dummy_structured_core_env.agent_counts_dict self !! 0 = Some count
    ∧ 0 ≤ 1 < count.
Proof.
  intros self.
  apply (actor_id_in_agent_counts (C := fixtures.toy_collaborators) self).
  apply dummy_structured_core_env.reachable_step,
    dummy_structured_core_env.reachable_init.
Defined.

